(** * FVNavStokesPredictor_p: Rhie-Chow coefficients and face interpolation

    A shallow embedding of [src/src/kernels/FVNavStokesPredictor_p.C].
    Scalars ([Real], [ADReal]) are modelled as Stdlib reals [R]; the
    derivative part of [ADReal] is not modelled.  [VectorValue] and [Point]
    are three-component vectors.  The MOOSE framework services the kernel
    calls (functors, field accessors, the face loop of an element, the
    coordinate transform, the interpolation weights of the advected
    quantity) are fields of the record [Env]: they are inputs of the code,
    not part of this repository.  Debug-build [mooseAssert]s and
    [mooseError]s are modelled as [Err] results. *)

From Stdlib Require Import Reals Lra.
From stdpp Require Import base gmap list strings.

Local Open Scope R_scope.

(** ** Vectors ([VectorValue<ADReal>], [Point]) *)

Record vec := Vec { v0 : R; v1 : R; v2 : R }.

(** [v(i)]; [LIBMESH_DIM] is 3, indices past it read as 0. *)
Definition vget (v : vec) (i : nat) : R :=
  match i with
  | 0%nat => v0 v
  | 1%nat => v1 v
  | 2%nat => v2 v
  | _ => 0
  end.

(** [v(i) = r]; indices past [LIBMESH_DIM] leave the vector unchanged. *)
Definition vset (v : vec) (i : nat) (r : R) : vec :=
  match i with
  | 0%nat => Vec r (v1 v) (v2 v)
  | 1%nat => Vec (v0 v) r (v2 v)
  | 2%nat => Vec (v0 v) (v1 v) r
  | _ => v
  end.

Definition vzero : vec := Vec 0 0 0.
Definition vsub (a b : vec) : vec := Vec (v0 a - v0 b) (v1 a - v1 b) (v2 a - v2 b).
Definition vopp (a : vec) : vec := Vec (- v0 a) (- v1 a) (- v2 a).
(** [a * b] for two vectors is the dot product. *)
Definition vdot (a b : vec) : R := v0 a * v0 b + v1 a * v1 b + v2 a * v2 b.
Definition vnorm (a : vec) : R := sqrt (vdot a a).

(** [for (const auto i : make_range(dim)) v = body(v, i);] *)
Definition for_range (dim : nat) (body : vec -> nat -> vec) (v : vec) : vec :=
  fold_left body (seq 0 dim) v.

(** [for (i : make_range(dim)) coeff(i) += t(i);] *)
Definition add_each (dim : nat) (t : nat -> R) (coeff : vec) : vec :=
  for_range dim (fun c i => vset c i (vget c i + t i)) coeff.

(** ** Mesh data *)

Inductive InterpMethod := Average | Upwind | RhieChow.

(** A [FaceInfo]: the element on the side of the face that owns the info,
    the neighbour across it (a null pointer is [None]), geometry, and the
    ids of the boundaries the face lies on, in the ascending order of the
    [std::set] returned by [boundaryIDs()]. *)
Record FaceInfo := {
  fi_elem : nat;
  fi_neighbor : option nat;
  fi_elem_subdomain : Z;
  fi_neighbor_subdomain : Z;
  fi_normal : vec;
  fi_faceArea : R;
  fi_gC : R;
  fi_elemCentroid : vec;
  fi_neighborCentroid : vec;
  fi_faceCentroid : vec;
  fi_elemVolume : R;
  fi_neighborVolume : R;
  fi_boundaryIDs : list Z
}.

(** One call of the action functor by [Moose::FV::loopOverElemFaceInfo]:
    the neighbour element, the face, the surface vector, the coordinate
    factor and whether the visited element owns the face info. *)
Record FaceVisit := {
  fv_neighbor : option nat;
  fv_fi : FaceInfo;
  fv_surface_vector : vec;
  fv_coord : R;
  fv_elem_has_info : bool
}.

(** The framework services and solution-dependent accessors the kernel
    reads.  [onBoundary] is the kernel's (block-restriction aware) test;
    [elem_value c e], [boundary_face_value c fi] and
    [neighbor_value c n fi x] are [getElemValue], [getBoundaryFaceValue]
    and [getNeighborValue] of velocity component [c]; [elem_faces] is the
    face loop of an element; [vel_elem_face]/[vel_neighbor_face] are
    [_vel(elemFromFace())]/[_vel(neighborFromFace())]; [getCoordSystem]
    is [_subproblem.getCoordSystem] of a subdomain. *)
Record Env := {
  onBoundary : FaceInfo -> bool;
  mu_face : FaceInfo -> R;
  rho_face : FaceInfo -> R;
  elem_value : nat -> nat -> R;
  boundary_face_value : nat -> FaceInfo -> R;
  neighbor_value : nat -> option nat -> FaceInfo -> R -> R;
  interpCoeffs : InterpMethod -> FaceInfo -> bool -> vec -> R * R;
  elem_faces : nat -> list FaceVisit;
  vel_elem_face : FaceInfo -> vec;
  vel_neighbor_face : FaceInfo -> vec;
  adGradSln_p : FaceInfo -> vec;
  uncorrectedAdGradSln_p : FaceInfo -> vec;
  coordTransformFactor : Z -> vec -> R;
  getCoordSystem : Z -> nat;
  has_flux_bc : FaceInfo -> bool;
  has_dirichlet_bc : FaceInfo -> bool
}.

(** ** Errors *)

Inductive Error :=
  (** [mooseError("The FVNavStokesPredictor_p object ", name, " is not
      completely bounded by INSFVBCs. Please examine sideset ",
      *fi->boundaryIDs().begin(), ...)] *)
  | NotBounded (object_name : string) (sideset : option Z)
  (** a failed [mooseAssert] (debug builds) *)
  | AssertFail (msg : string).

Inductive result (A : Type) := Ok (a : A) | Err (e : Error).
Arguments Ok {A} a.
Arguments Err {A} e.

Definition rbind {A B} (r : result A) (f : A -> result B) : result B :=
  match r with Ok a => f a | Err e => Err e end.

Notation "'let?' x := r 'in' k" := (rbind r (fun x => k))
  (at level 200, x name, r at level 100, k at level 200).

(** ** Kernel state *)

(** The [std::set<BoundaryID>] members filled by [initialSetup]. *)
Record Boundaries := {
  no_slip_wall_boundaries : gset Z;
  slip_wall_boundaries : gset Z;
  flow_boundaries : gset Z;
  fully_developed_flow_boundaries : gset Z;
  symmetry_boundaries : gset Z;
  all_boundaries : gset Z
}.

(** One [FVNavStokesPredictor_p] object: its name, the [MooseApp] and the
    thread it belongs to, the mesh dimension [_dim], whether the [v] and
    [w] velocity variables are coupled, [_advected_interp_method] and its
    boundary sets. *)
Record Kernel := {
  k_name : string;
  k_app : nat;
  k_tid : nat;
  k_dim : nat;
  k_has_v : bool;
  k_has_w : bool;
  k_advected_interp_method : InterpMethod;
  k_bnds : Boundaries
}.

(** ** Boundary classification ([setupFlowBoundaries]) *)

(** [flow_bcs] is the result of the warehouse query for the INSFV flow BCs
    on [bnd_id], in query order; each entry says whether
    [dynamic_cast<INSFVFullyDevelopedFlowBC *>] succeeds on it.  [debug]
    is [!NDEBUG]. *)
Definition setupFlowBoundaries (debug : bool) (flow_bcs : list bool)
    (bnd_id : Z) (b : Boundaries) : result Boundaries :=
  match flow_bcs with
  | [] => Ok b
  | front :: _ =>
      let? _u :=
        (if debug then
           if front then
             (if forallb (fun fd => fd) flow_bcs then Ok tt
              else Err (AssertFail "If one BC is a fully developed flow BC, then all other flow BCs on that boundary must also be fully developed flow BCs"))
           else
             (if forallb negb flow_bcs then Ok tt
              else Err (AssertFail "If one BC is not a fully developed flow BC, then all other flow BCs on that boundary must also not be fully developed flow BCs"))
         else Ok tt) in
      let fdf := if front then {[bnd_id]} ∪ fully_developed_flow_boundaries b
                 else fully_developed_flow_boundaries b in
      Ok {| no_slip_wall_boundaries := no_slip_wall_boundaries b;
            slip_wall_boundaries := slip_wall_boundaries b;
            flow_boundaries := {[bnd_id]} ∪ flow_boundaries b;
            fully_developed_flow_boundaries := fdf;
            symmetry_boundaries := symmetry_boundaries b;
            all_boundaries := {[bnd_id]} ∪ all_boundaries b |}
  end.

(** ** [skipForBoundary] and the residual gate *)

Definition skipForBoundary (env : Env) (k : Kernel) (fi : FaceInfo) : bool :=
  if negb (onBoundary env fi) then false
  else if has_flux_bc env fi then true
  else if existsb (fun bc_id => bool_decide (bc_id ∈ flow_boundaries (k_bnds k)))
            (fi_boundaryIDs fi) then false
  else negb (has_dirichlet_bc env fi).

(** The framework's [FVFluxKernel::computeResidual(fi)] returns before
    evaluating [computeQpResidual] when [skipForBoundary(fi)] holds: the
    contribution of the face to the residual is then zero. *)
Definition face_residual (env : Env) (k : Kernel) (fi : FaceInfo)
    (computeQpResidual : R) : R :=
  if skipForBoundary env k fi then 0 else computeQpResidual.

(** ** Face interpolation helpers ([Moose::FV::interpolate], Average) *)

Definition average_coeffs (fi : FaceInfo) (one_is_elem : bool) : R * R :=
  if one_is_elem then (fi_gC fi, 1 - fi_gC fi) else (1 - fi_gC fi, fi_gC fi).

Definition interpolate_average (fi : FaceInfo) (one_is_elem : bool)
    (a b : vec) : vec :=
  let c1 := fst (average_coeffs fi one_is_elem) in
  let c2 := snd (average_coeffs fi one_is_elem) in
  Vec (c1 * v0 a + c2 * v0 b) (c1 * v1 a + c2 * v1 b) (c1 * v2 a + c2 * v2 b).

(** [ADRealVectorValue v(u); if (_v_var) v(1) = ...; if (_w_var) v(2) = ...;] *)
Definition velocity_of (k : Kernel) (value : nat -> R) : vec :=
  let v := Vec (value 0%nat) 0 0 in
  let v := if k_has_v k then vset v 1 (value 1%nat) else v in
  if k_has_w k then vset v 2 (value 2%nat) else v.

(** ** [coeffCalculator] *)

(** [normal] and [rc_centroid] of the action functor. *)
Definition rc_normal (fv : FaceVisit) : vec :=
  if fv_elem_has_info fv then fi_normal (fv_fi fv) else vopp (fi_normal (fv_fi fv)).

Definition rc_centroid (fv : FaceVisit) : vec :=
  if fv_elem_has_info fv then fi_elemCentroid (fv_fi fv)
  else fi_neighborCentroid (fv_fi fv).

(** The no-slip wall branch, before its [return]. *)
Definition no_slip_wall_contribution (env : Env) (k : Kernel) (fv : FaceVisit)
    (coeff : vec) : vec :=
  let fi := fv_fi fv in
  let normal := rc_normal fv in
  add_each (k_dim k)
    (fun i => mu_face env fi * vnorm (fv_surface_vector fv) /
              Rabs (vdot (vsub (fi_faceCentroid fi) (rc_centroid fv)) normal) *
              (1 - vget normal i * vget normal i))
    coeff.

(** The flow-boundary branch for boundary id [bc_id], before its [return]. *)
Definition flow_contribution (env : Env) (k : Kernel) (fv : FaceVisit)
    (bc_id : Z) (coeff : vec) : vec :=
  let fi := fv_fi fv in
  let face_velocity := velocity_of k (fun c => boundary_face_value env c fi) in
  let advection_coeffs :=
    interpCoeffs env (k_advected_interp_method k) fi (fv_elem_has_info fv) face_velocity in
  let temp_coeff :=
    rho_face env fi * vdot face_velocity (fv_surface_vector fv) * fst advection_coeffs in
  let temp_coeff :=
    if bool_decide (bc_id ∉ fully_developed_flow_boundaries (k_bnds k))
    then temp_coeff + mu_face env fi * vnorm (fv_surface_vector fv) /
                      vnorm (vsub (fi_faceCentroid fi) (rc_centroid fv))
    else temp_coeff in
  add_each (k_dim k) (fun _ => temp_coeff) coeff.

(** The symmetry branch, before its [return]. *)
Definition symmetry_contribution (env : Env) (k : Kernel) (fv : FaceVisit)
    (coeff : vec) : vec :=
  let fi := fv_fi fv in
  let normal := rc_normal fv in
  add_each (k_dim k)
    (fun i => 2 * mu_face env fi * vnorm (fv_surface_vector fv) /
              Rabs (vdot (vsub (fi_faceCentroid fi) (rc_centroid fv)) normal) *
              vget normal i * vget normal i)
    coeff.

(** The loop [for (const auto bc_id : fi->boundaryIDs())] of the boundary
    case; [None] means the loop ran to its end without a [return]. *)
Fixpoint boundary_scan (env : Env) (k : Kernel) (fv : FaceVisit)
    (bc_ids : list Z) (coeff : vec) : option vec :=
  match bc_ids with
  | [] => None
  | bc_id :: rest =>
      if bool_decide (bc_id ∈ no_slip_wall_boundaries (k_bnds k)) then
        Some (no_slip_wall_contribution env k fv coeff)
      else if bool_decide (bc_id ∈ slip_wall_boundaries (k_bnds k)) then
        Some coeff
      else if bool_decide (bc_id ∈ flow_boundaries (k_bnds k)) then
        Some (flow_contribution env k fv bc_id coeff)
      else if bool_decide (bc_id ∈ symmetry_boundaries (k_bnds k)) then
        Some (symmetry_contribution env k fv coeff)
      else boundary_scan env k fv rest coeff
  end.

(** The internal-face part of the action functor. *)
Definition interior_contribution (env : Env) (k : Kernel) (elem_velocity : vec)
    (fv : FaceVisit) (coeff : vec) : vec :=
  let fi := fv_fi fv in
  let ehi := fv_elem_has_info fv in
  let neighbor_velocity :=
    velocity_of k (fun c => neighbor_value env c (fv_neighbor fv) fi (vget elem_velocity c)) in
  let interp_v := interpolate_average fi ehi elem_velocity neighbor_velocity in
  let advection_coeffs := interpCoeffs env (k_advected_interp_method k) fi ehi interp_v in
  let temp_coeff :=
    rho_face env fi * vdot interp_v (fv_surface_vector fv) * fst advection_coeffs in
  let temp_coeff :=
    temp_coeff + mu_face env fi * vnorm (fv_surface_vector fv) /
                 vnorm (vsub (fi_neighborCentroid fi) (fi_elemCentroid fi)) in
  add_each (k_dim k) (fun _ => temp_coeff) coeff.

(** The lambda [action_functor], acting on the captured [coeff]. *)
Definition action_functor (env : Env) (k : Kernel) (elem_velocity : vec)
    (coeff : vec) (fv : FaceVisit) : result vec :=
  let fi := fv_fi fv in
  if onBoundary env fi then
    match boundary_scan env k fv (fi_boundaryIDs fi) coeff with
    | Some c => Ok c
    | None => Err (NotBounded (k_name k) (head (fi_boundaryIDs fi)))
    end
  else Ok (interior_contribution env k elem_velocity fv coeff).

(** [Moose::FV::loopOverElemFaceInfo(elem, ..., action_functor)]; an error
    thrown by the functor ends the loop. *)
Fixpoint loop_faces (env : Env) (k : Kernel) (elem_velocity : vec)
    (fvs : list FaceVisit) (coeff : vec) : result vec :=
  match fvs with
  | [] => Ok coeff
  | fv :: rest =>
      let? c := action_functor env k elem_velocity coeff fv in
      loop_faces env k elem_velocity rest c
  end.

Definition coeffCalculator (env : Env) (k : Kernel) (elem : nat) : result vec :=
  let elem_velocity := velocity_of k (fun c => elem_value env c elem) in
  loop_faces env k elem_velocity (elem_faces env elem) vzero.

(** ** The coefficient cache [_rc_a_coeffs] *)

(** [std::unordered_map<const MooseApp *, std::vector<std::unordered_map<
    const Elem *, VectorValue<ADReal>>>>]: apps and elements by id, one
    map per thread. *)
Local Abbreviation RCStore := (gmap nat (list (gmap nat vec))).

(** The constructor's [if (_tid == 0) _rc_a_coeffs[&_app].resize(n_threads)]. *)
Definition construct_store (k : Kernel) (n_threads : nat) (store : RCStore) : RCStore :=
  if decide (k_tid k = 0%nat)
  then <[k_app k := resize n_threads ∅ (default [] (store !! k_app k))]> store
  else store.

Definition rcCoeff (env : Env) (k : Kernel) (elem : nat) (store : RCStore)
    : result (vec * RCStore) :=
  match store !! k_app k with
  | None => Err (AssertFail "No RC coeffs structure exists for the given MooseApp pointer")
  | Some maps =>
      match maps !! k_tid k with
      | None => Err (AssertFail "The RC coeffs structure size is greater than or equal to the provided thread ID")
      | Some my_map =>
          match my_map !! elem with
          | Some c => Ok (c, store)
          | None =>
              let? c := coeffCalculator env k elem in
              Ok (c, <[k_app k := <[k_tid k := <[elem := c]> my_map]> maps]> store)
          end
      end
  end.

Definition clearRCCoeffs (k : Kernel) (store : RCStore) : result RCStore :=
  match store !! k_app k with
  | None => Err (AssertFail "No RC coeffs structure exists for the given MooseApp pointer")
  | Some maps =>
      match maps !! k_tid k with
      | None => Err (AssertFail "The RC coeffs structure size is greater than or equal to the provided thread ID")
      | Some _ => Ok (<[k_app k := <[k_tid k := ∅]> maps]> store)
      end
  end.

(** The entry of the cache for [elem] on the kernel's app and thread. *)
Definition cached (k : Kernel) (store : RCStore) (elem : nat) : option vec :=
  maps ← store !! k_app k; my_map ← maps !! k_tid k; my_map !! elem.

(** The cache activity that may come between two lookups of a cell by a
    kernel [k]: successful lookups of any cell by any kernel (which
    emplace into the maps), and successful clears by kernels of another
    app or another thread. *)
Inductive cache_activity (k : Kernel) : RCStore -> RCStore -> Prop :=
| activity_done s : cache_activity k s s
| activity_lookup env' k' e c' s s1 s2 :
    rcCoeff env' k' e s = Ok (c', s1) -> cache_activity k s1 s2 -> cache_activity k s s2
| activity_clear k' s s1 s2 :
    k_app k' <> k_app k \/ k_tid k' <> k_tid k ->
    clearRCCoeffs k' s = Ok s1 -> cache_activity k s1 s2 -> cache_activity k s s2.

(** Any sequence of successful lookups and clears, by any kernels. *)
Inductive cache_ops : RCStore -> RCStore -> Prop :=
| cache_ops_done s : cache_ops s s
| cache_ops_lookup env k e c s s1 s2 :
    rcCoeff env k e s = Ok (c, s1) -> cache_ops s1 s2 -> cache_ops s s2
| cache_ops_clear k s s1 s2 :
    clearRCCoeffs k s = Ok s1 -> cache_ops s1 s2 -> cache_ops s s2.

(** ** [interpolate] *)

(** The [mooseAssert(a(i).value() != 0, "We should not be dividing by
    zero")] of the loops computing [D], for every [i < dim]. *)
Definition nonzero_below (dim : nat) (a : vec) : bool :=
  forallb (fun i => if Req_dec_T (vget a i) 0 then false else true) (seq 0 dim).

Definition interpolate (env : Env) (k : Kernel) (m : InterpMethod) (fi : FaceInfo)
    (v : vec) (store : RCStore) : result (vec * RCStore) :=
  if onBoundary env fi then
    let v := vset v 0 (boundary_face_value env 0 fi) in
    let v := if k_has_v k then vset v 1 (boundary_face_value env 1 fi) else v in
    let v := if k_has_w k then vset v 2 (boundary_face_value env 2 fi) else v in
    Ok (v, store)
  else
    let v := interpolate_average fi true (vel_elem_face env fi) (vel_neighbor_face env fi) in
    match m with
    | Average => Ok (v, store)
    | _ =>
      match fi_neighbor fi with
      | None => Err (AssertFail "We should be on an internal face...")
      | Some neighbor =>
        let grad_p := adGradSln_p env fi in
        let unc_grad_p := uncorrectedAdGradSln_p env fi in
        let? r1 := rcCoeff env k (fi_elem fi) store in
        let elem_a := fst r1 in
        if negb (Nat.eqb (getCoordSystem env (fi_elem_subdomain fi))
                         (getCoordSystem env (fi_neighbor_subdomain fi))) then
          Err (AssertFail "Coordinate systems must be the same between the two elements")
        else
        let elem_volume :=
          fi_elemVolume fi * coordTransformFactor env (fi_elem_subdomain fi) (fi_elemCentroid fi) in
        if negb (nonzero_below (k_dim k) elem_a) then
          Err (AssertFail "We should not be dividing by zero")
        else
        let elem_D := for_range (k_dim k) (fun d i => vset d i (elem_volume / vget elem_a i)) vzero in
        let? r2 := rcCoeff env k neighbor (snd r1) in
        let neighbor_a := fst r2 in
        let neighbor_volume :=
          fi_neighborVolume fi *
          coordTransformFactor env (fi_neighbor_subdomain fi) (fi_neighborCentroid fi) in
        if negb (nonzero_below (k_dim k) neighbor_a) then
          Err (AssertFail "We should not be dividing by zero")
        else
        let neighbor_D :=
          for_range (k_dim k) (fun d i => vset d i (neighbor_volume / vget neighbor_a i)) vzero in
        let face_D := interpolate_average fi true elem_D neighbor_D in
        Ok (for_range (k_dim k)
              (fun w i => vset w i (vget w i - vget face_D i * (vget grad_p i - vget unc_grad_p i)))
              v,
            snd r2)
      end
    end.

(** ** [setupBoundaries] and [initialSetup] *)

(** The INSFV BC kinds [setupBoundaries<T>] is instantiated with. *)
Inductive INSFVBCs := INSFVNoSlipWallBC | INSFVSlipWallBC | INSFVSymmetryBC.

(** [setupBoundaries<T>(bnd_id, bc_type, bnd_ids)]; [nonempty] says whether
    the warehouse query for BCs of [bc_type] on [bnd_id] found any. *)
Definition setupBoundaries (bc_type : INSFVBCs) (nonempty : bool) (bnd_id : Z)
    (b : Boundaries) : Boundaries :=
  if nonempty then
    {| no_slip_wall_boundaries :=
         (match bc_type with INSFVNoSlipWallBC => {[bnd_id]} ∪ no_slip_wall_boundaries b | _ => no_slip_wall_boundaries b end);
       slip_wall_boundaries :=
         (match bc_type with INSFVSlipWallBC => {[bnd_id]} ∪ slip_wall_boundaries b | _ => slip_wall_boundaries b end);
       flow_boundaries := flow_boundaries b;
       fully_developed_flow_boundaries := fully_developed_flow_boundaries b;
       symmetry_boundaries :=
         (match bc_type with INSFVSymmetryBC => {[bnd_id]} ∪ symmetry_boundaries b | _ => symmetry_boundaries b end);
       all_boundaries := {[bnd_id]} ∪ all_boundaries b |}
  else b.

(** The warehouse as [initialSetup] sees it: for a boundary id, the flow
    BCs on it (each: fully developed or not) and whether BCs of each other
    INSFV kind are on it. *)
Record BCQuery := {
  q_flow : Z -> list bool;
  q_bcs : INSFVBCs -> Z -> bool
}.

(** The loop [for (const auto bnd_id : all_connected_boundaries)] of
    [initialSetup]; the ids are those of the [std::set], in order. *)
Fixpoint initialSetup_loop (debug : bool) (q : BCQuery) (ids : list Z)
    (b : Boundaries) : result Boundaries :=
  match ids with
  | [] => Ok b
  | bnd_id :: rest =>
      let? b1 := setupFlowBoundaries debug (q_flow q bnd_id) bnd_id b in
      let b2 := setupBoundaries INSFVNoSlipWallBC (q_bcs q INSFVNoSlipWallBC bnd_id) bnd_id b1 in
      let b3 := setupBoundaries INSFVSlipWallBC (q_bcs q INSFVSlipWallBC bnd_id) bnd_id b2 in
      let b4 := setupBoundaries INSFVSymmetryBC (q_bcs q INSFVSymmetryBC bnd_id) bnd_id b3 in
      initialSetup_loop debug q rest b4
  end.

(** [initialSetup], starting from the empty sets of a new kernel;
    [all_connected_boundaries] is the union of the boundary ids of the
    kernel's blocks (a mesh query). *)
Definition empty_boundaries : Boundaries := {|
  no_slip_wall_boundaries := ∅; slip_wall_boundaries := ∅; flow_boundaries := ∅;
  fully_developed_flow_boundaries := ∅; symmetry_boundaries := ∅; all_boundaries := ∅ |}.

Definition initialSetup (debug : bool) (q : BCQuery) (all_connected_boundaries : list Z)
    : result Boundaries :=
  initialSetup_loop debug q all_connected_boundaries empty_boundaries.

(** The flow BCs on one id are all fully developed or all not. *)
Definition flow_bcs_consistent (flow_bcs : list bool) : bool :=
  forallb (fun fd => fd) flow_bcs || forallb negb flow_bcs.

(** ** The constructor's parameter checks *)

(** The parameters the constructor reads: whether the pressure and [u]
    variables have the INSFV types, whether [v] and [w] are given and have
    the INSFV velocity type, the mesh dimension, [velocity_interp_method],
    [force_boundary_execution] and [boundaries_to_force]. *)
Record PredictorParams := {
  prm_name : string;
  prm_app : nat;
  prm_tid : nat;
  prm_pressure_is_insfv : bool;
  prm_u_is_insfv : bool;
  prm_v_given : bool;
  prm_v_is_insfv : bool;
  prm_w_given : bool;
  prm_w_is_insfv : bool;
  prm_dim : nat;
  prm_velocity_interp_method : string;
  prm_advected_interp_method : InterpMethod;
  prm_force_boundary_execution : bool;
  prm_boundaries_to_force : list string
}.

Inductive SetupError :=
  | ParamError (param : string) (msg : string)
  | SetupMooseError (msg : string).

(** The constructor of [FVNavStokesPredictor_p] (global AD indexing): the
    kernel and its velocity interpolation method, or the first error. *)
Definition construct (p : PredictorParams) : SetupError + (Kernel * InterpMethod) :=
  let has_v := prm_v_given p && prm_v_is_insfv p in
  let has_w := prm_w_given p && prm_w_is_insfv p in
  if negb (prm_pressure_is_insfv p) then
    inl (ParamError "pressure" "the pressure must be a INSFVPressureVariable.")
  else if negb (prm_u_is_insfv p) then
    inl (ParamError "u" "the u velocity must be an INSFVVelocityVariable.")
  else if (2 <=? prm_dim p)%nat && negb has_v then
    inl (ParamError "v" "In two or more dimensions, the v velocity must be supplied and it must be an INSFVVelocityVariable.")
  else if (3 <=? prm_dim p)%nat && negb (prm_w_given p) then
    inl (ParamError "w" "In three-dimensions, the w velocity must be supplied and it must be an INSFVVelocityVariable.")
  else
    let m :=
      if String.eqb (prm_velocity_interp_method p) "average" then inr Average
      else if String.eqb (prm_velocity_interp_method p) "rc" then inr RhieChow
      else inl (SetupMooseError "Unrecognized interpolation type") in
    match m with
    | inl e => inl e
    | inr m =>
        if prm_force_boundary_execution p then
          inl (ParamError "force_boundary_execution" "Do not use the force_boundary_execution parameter to control execution of INSFV advection objects")
        else if negb (bool_decide (prm_boundaries_to_force p = [])) then
          inl (ParamError "boundaries_to_force" "Do not use the boundaries_to_force parameter to control execution of INSFV advection objects")
        else
          inr ({| k_name := prm_name p; k_app := prm_app p; k_tid := prm_tid p;
                  k_dim := prm_dim p; k_has_v := has_v; k_has_w := has_w;
                  k_advected_interp_method := prm_advected_interp_method p;
                  k_bnds := empty_boundaries |}, m)
    end.

(** ** [interpolate] with its debug-build check *)

(** The [#ifndef NDEBUG] block at the top of the boundary case of
    [interpolate]: some boundary id of the face must be a flow boundary. *)
Definition interpolate_checked (debug : bool) (env : Env) (k : Kernel) (m : InterpMethod)
    (fi : FaceInfo) (v : vec) (store : RCStore) : result (vec * RCStore) :=
  if debug && onBoundary env fi &&
     negb (existsb (fun b_id => bool_decide (b_id ∈ flow_boundaries (k_bnds k)))
             (fi_boundaryIDs fi))
  then Err (AssertFail "INSFV*Advection flux kernel objects should only execute on flow boundaries.")
  else interpolate env k m fi v store.

(** ** [computeQpResidual] of the momentum predictor *)

(** The remaining functors: [_adv_quant] on the two sides of the face, the
    limited interpolation of the advected quantity with an advector,
    [_mu] on the two sides, and [gradUDotNormal()]. *)
Record ResidualEnv := {
  adv_quant_elem_face : FaceInfo -> R;
  adv_quant_neighbor_face : FaceInfo -> R;
  adv_interpolate : InterpMethod -> R -> R -> vec -> FaceInfo -> bool -> R;
  mu_elem_face : FaceInfo -> R;
  mu_neighbor_face : FaceInfo -> R;
  gradUDotNormal : FaceInfo -> R
}.

Definition computeQpResidual (env : Env) (renv : ResidualEnv) (k : Kernel)
    (velocity_interp_method : InterpMethod) (fi : FaceInfo) (store : RCStore)
    : result (R * RCStore) :=
  let? r := interpolate env k velocity_interp_method fi vzero store in
  let v := fst r in
  let adv_quant_interface :=
    adv_interpolate renv (k_advected_interp_method k) (adv_quant_elem_face renv fi)
      (adv_quant_neighbor_face renv fi) v fi true in
  let convection_residual := vdot (fi_normal fi) v * adv_quant_interface in
  let mu_face :=
    fst (average_coeffs fi true) * mu_elem_face renv fi +
    snd (average_coeffs fi true) * mu_neighbor_face renv fi in
  let dudn := gradUDotNormal renv fi in
  let diffusion_residual := - 1 * mu_face * dudn in
  Ok (convection_residual + diffusion_residual, snd r).

(** ** [FVNavStokesPressurePredictor_p::computeQpResidual] *)

(** The coupled [Ainv_*] and [Hu_*] variables and the pressure gradient. *)
Record PPEnv := {
  Ainv_elem_value : nat -> nat -> R;
  Ainv_neighbor_value : nat -> option nat -> FaceInfo -> R -> R;
  Hu_elem_value : nat -> nat -> R;
  Hu_neighbor_value : nat -> option nat -> FaceInfo -> R -> R;
  pp_adGradSln : FaceInfo -> vec
}.

(** Which of [_Ainv_y], [_Ainv_z], [_Hu_y], [_Hu_z] are non-null (the
    constructor sets them only for a mesh of dimension 2 or 3). *)
Record PressurePredictor := {
  has_Ainv_y : bool;
  has_Ainv_z : bool;
  has_Hu_y : bool;
  has_Hu_z : bool
}.

(** [ADRealVectorValue v(x); if (_y) v(1) = ...; if (_z) v(2) = ...;] *)
Definition vec_of_vars (has_y has_z : bool) (value : nat -> R) : vec :=
  let v := Vec (value 0%nat) 0 0 in
  let v := if has_y then vset v 1 (value 1%nat) else v in
  if has_z then vset v 2 (value 2%nat) else v.

Definition pp_computeQpResidual (pe : PPEnv) (pk : PressurePredictor) (fi : FaceInfo) : R :=
  let elem := fi_elem fi in
  let neighbor := fi_neighbor fi in
  let hy := has_Ainv_y pk in
  let hz := has_Ainv_z pk in
  let elem_Ainv := vec_of_vars hy hz (fun c => Ainv_elem_value pe c elem) in
  let neighbor_Ainv :=
    vec_of_vars hy hz (fun c => Ainv_neighbor_value pe c neighbor fi (vget elem_Ainv c)) in
  let interp_Ainv_face := interpolate_average fi true elem_Ainv neighbor_Ainv in
  let Ainv_gradp :=
    vec_of_vars hy hz (fun c => vget interp_Ainv_face c * vget (pp_adGradSln pe fi) c) in
  let residual := vdot Ainv_gradp (fi_normal fi) in
  let elem_Hu := vec_of_vars (has_Hu_y pk) (has_Hu_z pk) (fun c => Hu_elem_value pe c elem) in
  let neighbor_Hu :=
    vec_of_vars (has_Hu_y pk) (has_Hu_z pk)
      (fun c => Hu_neighbor_value pe c neighbor fi (vget elem_Hu c)) in
  let interp_Hu_face := interpolate_average fi true elem_Hu neighbor_Hu in
  residual + vdot interp_Hu_face (fi_normal fi).

(** ** Reading of the claims' categories (for the precedence claim) *)

(** The boundary categories of the spec, tested on one boundary id in the
    precedence order no-slip wall, slip wall, flow, symmetry. *)
Inductive BndCategory := CatNoSlipWall | CatSlipWall | CatFlow | CatSymmetry.

Definition spec_tag_category (b : Boundaries) (t : Z) : option BndCategory :=
  if bool_decide (t ∈ no_slip_wall_boundaries b) then Some CatNoSlipWall
  else if bool_decide (t ∈ slip_wall_boundaries b) then Some CatSlipWall
  else if bool_decide (t ∈ flow_boundaries b) then Some CatFlow
  else if bool_decide (t ∈ symmetry_boundaries b) then Some CatSymmetry
  else None.

(** A boundary id in none of the four categories: the scan of the
    boundary case passes over it. *)
Definition uncategorised (b : Boundaries) (t : Z) : Prop :=
  (t ∉ no_slip_wall_boundaries b) /\ (t ∉ slip_wall_boundaries b) /\
  (t ∉ flow_boundaries b) /\ (t ∉ symmetry_boundaries b).

(** The first boundary id of a face, in scan order, that has a category. *)
Fixpoint spec_first_categorized (b : Boundaries) (tags : list Z)
    : option (Z * BndCategory) :=
  match tags with
  | [] => None
  | t :: rest =>
      match spec_tag_category b t with
      | Some cat => Some (t, cat)
      | None => spec_first_categorized b rest
      end
  end.

(** The one contribution of a category. *)
Definition spec_category_contribution (env : Env) (k : Kernel) (fv : FaceVisit)
    (t : Z) (cat : BndCategory) (coeff : vec) : vec :=
  match cat with
  | CatNoSlipWall => no_slip_wall_contribution env k fv coeff
  | CatSlipWall => coeff
  | CatFlow => flow_contribution env k fv t coeff
  | CatSymmetry => symmetry_contribution env k fv coeff
  end.

(** The claim's reading of the skip predicate: a boundary face that is on
    no flow boundary and carries neither a flux nor a Dirichlet BC. *)
Definition spec_skip (env : Env) (k : Kernel) (fi : FaceInfo) : bool :=
  onBoundary env fi &&
  negb (existsb (fun bc_id => bool_decide (bc_id ∈ flow_boundaries (k_bnds k)))
          (fi_boundaryIDs fi)) &&
  negb (has_flux_bc env fi) && negb (has_dirichlet_bc env fi).

(** ** Concrete configurations *)

(** Boundary 1 is a no-slip wall, 2 a slip wall, 3 an inlet, 4 a fully
    developed outlet, 5 a symmetry plane; 7 carries no INSFV BC. *)
Definition ex_bnds : Boundaries := {|
  no_slip_wall_boundaries := {[1%Z]};
  slip_wall_boundaries := {[2%Z]};
  flow_boundaries := {[3%Z; 4%Z]};
  fully_developed_flow_boundaries := {[4%Z]};
  symmetry_boundaries := {[5%Z]};
  all_boundaries := {[1%Z; 2%Z; 3%Z; 4%Z; 5%Z]} |}.

Definition ex_kernel : Kernel := {|
  k_name := "momentum_x_advection";
  k_app := 0;
  k_tid := 0;
  k_dim := 2;
  k_has_v := true;
  k_has_w := false;
  k_advected_interp_method := Upwind;
  k_bnds := ex_bnds |}.

(** A face of unit area normal to x between centroids 0 and 1. *)
Definition ex_face (elem : nat) (neighbor : option nat) (tags : list Z) : FaceInfo := {|
  fi_elem := elem;
  fi_neighbor := neighbor;
  fi_elem_subdomain := 0;
  fi_neighbor_subdomain := 0;
  fi_normal := Vec 1 0 0;
  fi_faceArea := 1;
  fi_gC := / 2;
  fi_elemCentroid := Vec 0 0 0;
  fi_neighborCentroid := Vec 1 0 0;
  fi_faceCentroid := Vec (/ 2) 0 0;
  fi_elemVolume := 1;
  fi_neighborVolume := 1;
  fi_boundaryIDs := tags |}.

Definition ex_visit (elem : nat) (neighbor : option nat) (tags : list Z) : FaceVisit := {|
  fv_neighbor := neighbor;
  fv_fi := ex_face elem neighbor tags;
  fv_surface_vector := Vec 1 0 0;
  fv_coord := 1;
  fv_elem_has_info := true |}.

(** Unit density and viscosity, unit velocities, a pressure gradient
    [grad_p] with uncorrected part [(1, 0, 0)], flux and Dirichlet BCs as
    given, and the face loop [faces]. *)
Definition ex_env (flux dirichlet : bool) (grad_p : vec) (faces : nat -> list FaceVisit)
    : Env := {|
  onBoundary := fun fi => match fi_neighbor fi with None => true | Some _ => false end;
  mu_face := fun _ => 1;
  rho_face := fun _ => 1;
  elem_value := fun _ _ => 1;
  boundary_face_value := fun _ _ => 1;
  neighbor_value := fun _ _ _ x => x;
  interpCoeffs := fun _ _ _ _ => (1, 0);
  elem_faces := faces;
  vel_elem_face := fun _ => Vec 1 0 0;
  vel_neighbor_face := fun _ => Vec 3 0 0;
  adGradSln_p := fun _ => grad_p;
  uncorrectedAdGradSln_p := fun _ => Vec 1 0 0;
  coordTransformFactor := fun _ _ => 1;
  getCoordSystem := fun _ => 0%nat;
  has_flux_bc := fun _ => flux;
  has_dirichlet_bc := fun _ => dirichlet |}.

(** Each cell [e] has one face, on a boundary whose id [7] has no INSFV BC. *)
Definition ex_unbounded_faces (e : nat) : list FaceVisit := [ex_visit e None [7%Z]].

(** Cell 0 has an internal face to cell 1 and a no-slip wall face. *)
Definition ex_faces (e : nat) : list FaceVisit :=
  match e with
  | 0%nat => [ex_visit 0 (Some 1%nat) []; ex_visit 0 None [1%Z]]
  | _ => [ex_visit e None [3%Z]]
  end.

(** Cells 0 and 1 with coefficients [(2, 4, 0)] and [(4, 4, 0)] already in
    the cache of thread 0. *)
Definition ex_store : gmap nat (list (gmap nat vec)) :=
  {[0%nat := [<[1%nat := Vec 4 4 0]> {[0%nat := Vec 2 4 0]}]]}.

(** A warehouse for the ids of [ex_bnds]: an inlet on 3, two fully
    developed outlets on 4, a no-slip wall on 1, a slip wall on 2, a
    symmetry plane on 5 and nothing on 7. *)
Definition ex_query : BCQuery := {|
  q_flow := fun bnd_id =>
    if Z.eqb bnd_id 3 then [false] else if Z.eqb bnd_id 4 then [true; true] else [];
  q_bcs := fun t bnd_id =>
    match t with
    | INSFVNoSlipWallBC => Z.eqb bnd_id 1
    | INSFVSlipWallBC => Z.eqb bnd_id 2
    | INSFVSymmetryBC => Z.eqb bnd_id 5
    end |}.

Definition ex_connected_boundaries : list Z := [1; 2; 3; 4; 5; 7]%Z.

(** A 3-D input whose [w] names a variable that is not an
    [INSFVVelocityVariable]. *)
Definition ex_params_3d : PredictorParams := {|
  prm_name := "momentum_x_advection";
  prm_app := 0;
  prm_tid := 0;
  prm_pressure_is_insfv := true;
  prm_u_is_insfv := true;
  prm_v_given := true;
  prm_v_is_insfv := true;
  prm_w_given := true;
  prm_w_is_insfv := false;
  prm_dim := 3;
  prm_velocity_interp_method := "rc";
  prm_advected_interp_method := Upwind;
  prm_force_boundary_execution := false;
  prm_boundaries_to_force := [] |}.

(** Viscosity 2 on the element side and 4 on the neighbour side, an
    advected quantity averaged with the advector's weight, and
    [gradUDotNormal() = 1]. *)
Definition ex_renv : ResidualEnv := {|
  adv_quant_elem_face := fun _ => 1;
  adv_quant_neighbor_face := fun _ => 1;
  adv_interpolate := fun _ a b _ fi _ => fi_gC fi * a + (1 - fi_gC fi) * b;
  mu_elem_face := fun _ => 2;
  mu_neighbor_face := fun _ => 4;
  gradUDotNormal := fun _ => 1 |}.

(** [Ainv] is [(1, 2, 3)] and [Hu] is [(5, 6, 7)] in every cell, the
    pressure gradient is [g]. *)
Definition ex_pp_env (g : vec) : PPEnv := {|
  Ainv_elem_value := fun c _ => INR (S c);
  Ainv_neighbor_value := fun c _ _ _ => INR (S c);
  Hu_elem_value := fun c _ => INR (5 + c);
  Hu_neighbor_value := fun c _ _ _ => INR (5 + c);
  pp_adGradSln := fun _ => g |}.

(** The pressure predictor on a 2-D mesh. *)
Definition ex_pp_2d : PressurePredictor := {|
  has_Ainv_y := true; has_Ainv_z := false; has_Hu_y := true; has_Hu_z := false |}.

(** * Lemmas *)

Lemma vget_vset (v : vec) (i j : nat) (r : R) :
  (i < 3)%nat -> vget (vset v i r) j = if decide (i = j) then r else vget v j.
Proof.
  intros Hi.
  destruct i as [|[|[|i]]]; [| | | lia];
    destruct j as [|[|[|j]]]; reflexivity.
Qed.

Lemma fold_seq_get (g : R -> nat -> R) (a n : nat) (v : vec) (j : nat) :
  (a + n <= 3)%nat ->
  vget (fold_left (fun w i => vset w i (g (vget w i) i)) (seq a n) v) j =
  if decide (a <= j < a + n)%nat then g (vget v j) j else vget v j.
Proof.
  revert a v. induction n as [|n IH]; intros a v Hn; simpl.
  - destruct (decide _); [lia | reflexivity].
  - rewrite IH by lia. rewrite !vget_vset by lia.
    destruct (decide (a = j)) as [->|Hne].
    + destruct (decide (S j <= j < S j + n)%nat); [lia|].
      destruct (decide (j <= j < j + S n)%nat); [reflexivity | lia].
    + destruct (decide (S a <= j < S a + n)%nat);
        destruct (decide (a <= j < a + S n)%nat); try reflexivity; lia.
Qed.

Lemma for_range_get (dim : nat) (g : R -> nat -> R) (v : vec) (j : nat) :
  (dim <= 3)%nat ->
  vget (for_range dim (fun w i => vset w i (g (vget w i) i)) v) j =
  if decide (j < dim)%nat then g (vget v j) j else vget v j.
Proof.
  intros Hd. unfold for_range. rewrite fold_seq_get by lia.
  destruct (decide (0 <= j < 0 + dim)%nat);
    destruct (decide (j < dim)%nat); try reflexivity; lia.
Qed.

Lemma add_each_get (dim : nat) (t : nat -> R) (c : vec) (j : nat) :
  (dim <= 3)%nat ->
  vget (add_each dim t c) j = if decide (j < dim)%nat then vget c j + t j else vget c j.
Proof.
  intros Hd. unfold add_each.
  exact (for_range_get dim (fun x i => x + t i) c j Hd).
Qed.

Lemma rc_normal_sq (fv : FaceVisit) (i : nat) :
  vget (rc_normal fv) i * vget (rc_normal fv) i =
  vget (fi_normal (fv_fi fv)) i * vget (fi_normal (fv_fi fv)) i.
Proof.
  unfold rc_normal. destruct (fv_elem_has_info fv); [reflexivity|].
  destruct i as [|[|[|i]]]; simpl; ring.
Qed.

(** The boundary branch of the action functor is the boundary scan. *)
Lemma action_functor_boundary (env : Env) (k : Kernel) (ev coeff : vec) (fv : FaceVisit) :
  onBoundary env (fv_fi fv) = true ->
  action_functor env k ev coeff fv =
  match boundary_scan env k fv (fi_boundaryIDs (fv_fi fv)) coeff with
  | Some c => Ok c
  | None => Err (NotBounded (k_name k) (head (fi_boundaryIDs (fv_fi fv))))
  end.
Proof. intros Hb. unfold action_functor. rewrite Hb. reflexivity. Qed.

Lemma vget_vopp (v : vec) (i : nat) : vget (vopp v) i = - vget v i.
Proof. destruct i as [|[|[|i]]]; simpl; [reflexivity..|ring]. Qed.

Lemma rc_normal_get (fv : FaceVisit) (i : nat) :
  vget (rc_normal fv) i =
  if fv_elem_has_info fv then vget (fi_normal (fv_fi fv)) i
  else - vget (fi_normal (fv_fi fv)) i.
Proof.
  unfold rc_normal. destruct (fv_elem_has_info fv); [reflexivity|apply vget_vopp].
Qed.

(** The scan stops at a boundary id with a category and skips those without. *)
Lemma boundary_scan_cons (env : Env) (k : Kernel) (fv : FaceVisit) (t : Z)
    (rest : list Z) (coeff : vec) :
  boundary_scan env k fv (t :: rest) coeff =
  match spec_tag_category (k_bnds k) t with
  | Some cat => Some (spec_category_contribution env k fv t cat coeff)
  | None => boundary_scan env k fv rest coeff
  end.
Proof.
  simpl. unfold spec_tag_category.
  destruct (bool_decide (t ∈ no_slip_wall_boundaries (k_bnds k))); [reflexivity|].
  destruct (bool_decide (t ∈ slip_wall_boundaries (k_bnds k))); [reflexivity|].
  destruct (bool_decide (t ∈ flow_boundaries (k_bnds k))); [reflexivity|].
  destruct (bool_decide (t ∈ symmetry_boundaries (k_bnds k))); reflexivity.
Qed.

Lemma spec_tag_category_no_slip (b : Boundaries) (t : Z) :
  t ∈ no_slip_wall_boundaries b -> spec_tag_category b t = Some CatNoSlipWall.
Proof.
  intros H. unfold spec_tag_category. rewrite (bool_decide_eq_true_2 _ H). reflexivity.
Qed.

Lemma spec_tag_category_flow (b : Boundaries) (t : Z) :
  t ∉ no_slip_wall_boundaries b -> t ∉ slip_wall_boundaries b ->
  t ∈ flow_boundaries b -> spec_tag_category b t = Some CatFlow.
Proof.
  intros H1 H2 H3. unfold spec_tag_category.
  rewrite (bool_decide_eq_false_2 _ H1), (bool_decide_eq_false_2 _ H2),
    (bool_decide_eq_true_2 _ H3). reflexivity.
Qed.

Lemma spec_tag_category_symmetry (b : Boundaries) (t : Z) :
  t ∉ no_slip_wall_boundaries b -> t ∉ slip_wall_boundaries b ->
  t ∉ flow_boundaries b -> t ∈ symmetry_boundaries b ->
  spec_tag_category b t = Some CatSymmetry.
Proof.
  intros H1 H2 H3 H4. unfold spec_tag_category.
  rewrite (bool_decide_eq_false_2 _ H1), (bool_decide_eq_false_2 _ H2),
    (bool_decide_eq_false_2 _ H3), (bool_decide_eq_true_2 _ H4). reflexivity.
Qed.

(** The scan passes over a prefix of uncategorised ids. *)
Lemma boundary_scan_skip (env : Env) (k : Kernel) (fv : FaceVisit) (pre l : list Z)
    (coeff : vec) :
  Forall (uncategorised (k_bnds k)) pre ->
  boundary_scan env k fv (pre ++ l) coeff = boundary_scan env k fv l coeff.
Proof.
  induction 1 as [|t pre [H1 [H2 [H3 H4]]] _ IH]; [reflexivity|].
  simpl. rewrite (bool_decide_eq_false_2 _ H1), (bool_decide_eq_false_2 _ H2),
    (bool_decide_eq_false_2 _ H3), (bool_decide_eq_false_2 _ H4). exact IH.
Qed.

(** * Claims *)

(** C4: on a boundary face whose first categorised boundary id, in scan
    order, is a no-slip wall (the ids before it, if any, are in none of
    the no-slip, slip, flow and symmetry sets), the calculator adds, to each component [i < dim], only the diffusive
    term [mu * |S| / |(x_f - x_C) . n| * (1 - n_i^2)], with no advective
    term: the result depends on no density or velocity value.  For a
    normal along coordinate axis [j] ([n_j = +-1]) component [j] gets
    exactly zero. *)
Theorem no_slip_wall_coeff (env : Env) (k : Kernel) (ev coeff : vec) (fv : FaceVisit)
    (pre : list Z) (bc_id : Z) (rest : list Z) :
  (k_dim k <= 3)%nat ->
  onBoundary env (fv_fi fv) = true ->
  fi_boundaryIDs (fv_fi fv) = pre ++ bc_id :: rest ->
  Forall (uncategorised (k_bnds k)) pre ->
  bc_id ∈ no_slip_wall_boundaries (k_bnds k) ->
  let fi := fv_fi fv in
  let normal := rc_normal fv in
  let c := no_slip_wall_contribution env k fv coeff in
  (forall env' : Env, onBoundary env' = onBoundary env -> mu_face env' = mu_face env ->
     action_functor env' k ev coeff fv = Ok c) /\
  (forall i, (i < k_dim k)%nat ->
     vget c i = vget coeff i +
       mu_face env fi * vnorm (fv_surface_vector fv) /
       Rabs (vdot (vsub (fi_faceCentroid fi) (rc_centroid fv)) normal) *
       (1 - vget normal i * vget normal i)) /\
  (forall i, (k_dim k <= i)%nat -> vget c i = vget coeff i) /\
  (forall j, vget (fi_normal fi) j = 1 \/ vget (fi_normal fi) j = -1 ->
     vget c j = vget coeff j).
Proof.
  intros Hd Hb Htags Hpre Hin fi normal c.
  split; [|split; [|split]].
  - intros env' Hob Hmu.
    rewrite action_functor_boundary by (rewrite Hob; exact Hb).
    rewrite Htags, (boundary_scan_skip _ _ _ _ _ _ Hpre), boundary_scan_cons, (spec_tag_category_no_slip _ _ Hin).
    simpl. unfold c, no_slip_wall_contribution. rewrite Hmu. reflexivity.
  - intros i Hi. unfold c, no_slip_wall_contribution. rewrite add_each_get by exact Hd.
    destruct (decide (i < k_dim k)%nat); [reflexivity|lia].
  - intros i Hi. unfold c, no_slip_wall_contribution. rewrite add_each_get by exact Hd.
    destruct (decide (i < k_dim k)%nat); [lia|reflexivity].
  - intros j Hj. unfold c, no_slip_wall_contribution. rewrite add_each_get by exact Hd.
    destruct (decide (j < k_dim k)%nat); [|reflexivity].
    rewrite rc_normal_sq. fold fi.
    assert (Hsq : vget (fi_normal fi) j * vget (fi_normal fi) j = 1)
      by (destruct Hj as [-> | ->]; ring).
    rewrite Hsq. ring.
Qed.

(** C2: on a boundary face whose first categorised boundary id, in scan
    order, is a symmetry boundary (and no no-slip, slip or flow boundary;
    the ids before it, if any, are in none of the four sets), the
    calculator adds,
    to each component [i < dim], only the diffusive term
    [2 * mu * |S| / |(x_f - x_C) . n| * n_i^2], with no advective term;
    a component along which the normal vanishes (an axis lying in the
    symmetry plane) receives nothing, so the contribution goes to the
    normal direction only. *)
Theorem symmetry_coeff (env : Env) (k : Kernel) (ev coeff : vec) (fv : FaceVisit)
    (pre : list Z) (bc_id : Z) (rest : list Z) :
  (k_dim k <= 3)%nat ->
  onBoundary env (fv_fi fv) = true ->
  fi_boundaryIDs (fv_fi fv) = pre ++ bc_id :: rest ->
  Forall (uncategorised (k_bnds k)) pre ->
  bc_id ∉ no_slip_wall_boundaries (k_bnds k) ->
  bc_id ∉ slip_wall_boundaries (k_bnds k) ->
  bc_id ∉ flow_boundaries (k_bnds k) ->
  bc_id ∈ symmetry_boundaries (k_bnds k) ->
  let fi := fv_fi fv in
  let normal := rc_normal fv in
  let c := symmetry_contribution env k fv coeff in
  (forall env' : Env, onBoundary env' = onBoundary env -> mu_face env' = mu_face env ->
     action_functor env' k ev coeff fv = Ok c) /\
  (forall i, (i < k_dim k)%nat ->
     vget c i = vget coeff i +
       2 * mu_face env fi * vnorm (fv_surface_vector fv) /
       Rabs (vdot (vsub (fi_faceCentroid fi) (rc_centroid fv)) normal) *
       (vget normal i * vget normal i)) /\
  (forall i, (k_dim k <= i)%nat -> vget c i = vget coeff i) /\
  (forall i, vget (fi_normal fi) i = 0 -> vget c i = vget coeff i).
Proof.
  intros Hd Hb Htags Hpre H1 H2 H3 H4 fi normal c.
  split; [|split; [|split]].
  - intros env' Hob Hmu.
    rewrite action_functor_boundary by (rewrite Hob; exact Hb).
    rewrite Htags, (boundary_scan_skip _ _ _ _ _ _ Hpre), boundary_scan_cons, (spec_tag_category_symmetry _ _ H1 H2 H3 H4).
    simpl. unfold c, symmetry_contribution. rewrite Hmu. reflexivity.
  - intros i Hi. unfold c, symmetry_contribution. rewrite add_each_get by exact Hd.
    destruct (decide (i < k_dim k)%nat); [|lia].
    unfold fi, normal. cbv beta zeta. ring.
  - intros i Hi. unfold c, symmetry_contribution. rewrite add_each_get by exact Hd.
    destruct (decide (i < k_dim k)%nat); [lia|reflexivity].
  - intros i Hi. unfold c, symmetry_contribution. rewrite add_each_get by exact Hd.
    destruct (decide (i < k_dim k)%nat); [|reflexivity].
    rewrite rc_normal_get. fold fi. rewrite Hi.
    destruct (fv_elem_has_info fv); ring.
Qed.

(** C5: on a boundary face whose first categorised boundary id, in scan
    order, is a flow boundary (and no no-slip or slip wall; the ids before
    it, if any, are in none of the four sets), every component [i < dim] receives the
    same contribution: the advective term
    [rho * (u_f . S) * w_C], [u_f] the boundary-face velocity and [w_C] the
    cell-side weight of the advected interpolation, plus the diffusive
    term [mu * |S| / |x_f - x_C|] exactly when the boundary id is not a
    fully developed flow boundary. *)
Theorem flow_boundary_coeff (env : Env) (k : Kernel) (ev coeff : vec) (fv : FaceVisit)
    (pre : list Z) (bc_id : Z) (rest : list Z) :
  (k_dim k <= 3)%nat ->
  onBoundary env (fv_fi fv) = true ->
  fi_boundaryIDs (fv_fi fv) = pre ++ bc_id :: rest ->
  Forall (uncategorised (k_bnds k)) pre ->
  bc_id ∉ no_slip_wall_boundaries (k_bnds k) ->
  bc_id ∉ slip_wall_boundaries (k_bnds k) ->
  bc_id ∈ flow_boundaries (k_bnds k) ->
  let fi := fv_fi fv in
  let sv := fv_surface_vector fv in
  let face_velocity := velocity_of k (fun comp => boundary_face_value env comp fi) in
  let advective :=
    rho_face env fi * vdot face_velocity sv *
    fst (interpCoeffs env (k_advected_interp_method k) fi (fv_elem_has_info fv) face_velocity) in
  let diffusive :=
    mu_face env fi * vnorm sv / vnorm (vsub (fi_faceCentroid fi) (rc_centroid fv)) in
  exists c, action_functor env k ev coeff fv = Ok c /\
    (forall i, (i < k_dim k)%nat ->
       vget c i = vget coeff i +
         (if bool_decide (bc_id ∈ fully_developed_flow_boundaries (k_bnds k))
          then advective else advective + diffusive)) /\
    (forall i, (k_dim k <= i)%nat -> vget c i = vget coeff i).
Proof.
  intros Hd Hb Htags Hpre H1 H2 H3 fi sv face_velocity advective diffusive.
  exists (flow_contribution env k fv bc_id coeff). split; [|split].
  - rewrite action_functor_boundary by exact Hb.
    rewrite Htags, (boundary_scan_skip _ _ _ _ _ _ Hpre), boundary_scan_cons, (spec_tag_category_flow _ _ H1 H2 H3).
    reflexivity.
  - intros i Hi. unfold flow_contribution. rewrite add_each_get by exact Hd.
    destruct (decide (i < k_dim k)%nat); [|lia].
    f_equal. unfold advective, diffusive, face_velocity, sv, fi.
    destruct (bool_decide (bc_id ∈ fully_developed_flow_boundaries (k_bnds k))) eqn:E.
    + rewrite bool_decide_eq_true in E.
      rewrite (bool_decide_eq_false_2 (bc_id ∉ _)) by (intros Hn; exact (Hn E)).
      reflexivity.
    + rewrite bool_decide_eq_false in E.
      rewrite (bool_decide_eq_true_2 (bc_id ∉ _)) by exact E.
      reflexivity.
  - intros i Hi. unfold flow_contribution. rewrite add_each_get by exact Hd.
    destruct (decide (i < k_dim k)%nat); [lia|reflexivity].
Qed.

Lemma boundary_scan_spec (env : Env) (k : Kernel) (fv : FaceVisit) (tags : list Z)
    (coeff : vec) :
  boundary_scan env k fv tags coeff =
  match spec_first_categorized (k_bnds k) tags with
  | Some (t, cat) => Some (spec_category_contribution env k fv t cat coeff)
  | None => None
  end.
Proof.
  induction tags as [|t rest IH]; [reflexivity|].
  rewrite boundary_scan_cons. simpl.
  destruct (spec_tag_category (k_bnds k) t); [reflexivity|exact IH].
Qed.

Lemma spec_first_categorized_app (b : Boundaries) (pre post : list Z) (t : Z)
    (cat : BndCategory) :
  Forall (fun u => spec_tag_category b u = None) pre ->
  spec_tag_category b t = Some cat ->
  spec_first_categorized b (pre ++ t :: post) = Some (t, cat).
Proof.
  intros Hpre Ht. induction Hpre as [|u pre Hu _ IH]; simpl.
  - rewrite Ht. reflexivity.
  - rewrite Hu. exact IH.
Qed.

(** C10: on a boundary face exactly one category contribution is applied:
    the boundary ids of the face are scanned in order, each is tested for
    no-slip wall, slip wall, flow and symmetry in that order, and the
    first match decides; boundary ids after it, and lower categories of
    the same id, contribute nothing.  A face with no match is an error. *)
Theorem boundary_precedence (env : Env) (k : Kernel) (ev coeff : vec) (fv : FaceVisit) :
  onBoundary env (fv_fi fv) = true ->
  action_functor env k ev coeff fv =
    match spec_first_categorized (k_bnds k) (fi_boundaryIDs (fv_fi fv)) with
    | Some (t, cat) => Ok (spec_category_contribution env k fv t cat coeff)
    | None => Err (NotBounded (k_name k) (head (fi_boundaryIDs (fv_fi fv))))
    end /\
  (forall (pre post : list Z) (t : Z) (cat : BndCategory),
     fi_boundaryIDs (fv_fi fv) = pre ++ t :: post ->
     Forall (fun u => spec_tag_category (k_bnds k) u = None) pre ->
     spec_tag_category (k_bnds k) t = Some cat ->
     action_functor env k ev coeff fv = Ok (spec_category_contribution env k fv t cat coeff)).
Proof.
  intros Hb.
  assert (Heq : action_functor env k ev coeff fv =
    match spec_first_categorized (k_bnds k) (fi_boundaryIDs (fv_fi fv)) with
    | Some (t, cat) => Ok (spec_category_contribution env k fv t cat coeff)
    | None => Err (NotBounded (k_name k) (head (fi_boundaryIDs (fv_fi fv))))
    end).
  { rewrite action_functor_boundary by exact Hb. rewrite boundary_scan_spec.
    destruct (spec_first_categorized _ _) as [[t cat]|]; reflexivity. }
  split; [exact Heq|].
  intros pre post t cat Htags Hpre Ht.
  rewrite Heq, Htags, (spec_first_categorized_app _ _ _ _ _ Hpre Ht). reflexivity.
Qed.

Lemma loop_faces_app (env : Env) (k : Kernel) (ev : vec) (pre rest : list FaceVisit)
    (c0 : vec) :
  loop_faces env k ev (pre ++ rest) c0 =
  let? c := loop_faces env k ev pre c0 in loop_faces env k ev rest c.
Proof.
  revert c0. induction pre as [|fv pre IH]; intros c0; simpl; [reflexivity|].
  destruct (action_functor env k ev c0 fv); simpl; [apply IH|reflexivity].
Qed.

Lemma spec_first_categorized_none (b : Boundaries) (tags : list Z) :
  Forall (fun t => (t ∉ no_slip_wall_boundaries b) /\ (t ∉ slip_wall_boundaries b) /\
                   (t ∉ flow_boundaries b) /\ (t ∉ symmetry_boundaries b)) tags ->
  spec_first_categorized b tags = None.
Proof.
  induction 1 as [|t tags (H1 & H2 & H3 & H4) _ IH]; simpl; [reflexivity|].
  unfold spec_tag_category.
  rewrite (bool_decide_eq_false_2 _ H1), (bool_decide_eq_false_2 _ H2),
    (bool_decide_eq_false_2 _ H3), (bool_decide_eq_false_2 _ H4).
  exact IH.
Qed.

(** C8 (as stated): the error raised for an unbounded face does not
    identify the cell: cells 1 and 2, each with a face on boundary 7 that
    has no INSFV BC, abort with the same error. *)
Lemma unbounded_error_cell_cex :
  (1 <> 2)%nat /\
  coeffCalculator (ex_env false false vzero ex_unbounded_faces) ex_kernel 1 =
    Err (NotBounded "momentum_x_advection" (Some 7%Z)) /\
  coeffCalculator (ex_env false false vzero ex_unbounded_faces) ex_kernel 2 =
    Err (NotBounded "momentum_x_advection" (Some 7%Z)).
Proof. split; [lia|split; vm_compute; reflexivity]. Qed.

(** C8 (amended): when the face loop of a cell reaches a boundary face
    whose boundary ids are in none of the no-slip wall, slip wall, flow
    and symmetry sets, [coeffCalculator] aborts with the error naming the
    kernel object and the first boundary id (sideset) of the face; the
    error carries no cell. *)
Theorem unbounded_face_error (env : Env) (k : Kernel) (elem : nat)
    (pre post : list FaceVisit) (fv : FaceVisit) (c : vec) :
  elem_faces env elem = pre ++ fv :: post ->
  loop_faces env k (velocity_of k (fun comp => elem_value env comp elem)) pre vzero = Ok c ->
  onBoundary env (fv_fi fv) = true ->
  Forall (fun t => (t ∉ no_slip_wall_boundaries (k_bnds k)) /\
                   (t ∉ slip_wall_boundaries (k_bnds k)) /\
                   (t ∉ flow_boundaries (k_bnds k)) /\
                   (t ∉ symmetry_boundaries (k_bnds k))) (fi_boundaryIDs (fv_fi fv)) ->
  coeffCalculator env k elem = Err (NotBounded (k_name k) (head (fi_boundaryIDs (fv_fi fv)))).
Proof.
  intros Hfaces Hpre Hb Hnone.
  unfold coeffCalculator. rewrite Hfaces, loop_faces_app, Hpre. simpl.
  rewrite action_functor_boundary by exact Hb.
  rewrite boundary_scan_spec, (spec_first_categorized_none _ _ Hnone). reflexivity.
Qed.

Lemma unbounded_face_error_witness :
  ex_unbounded_faces 1 = [] ++ ex_visit 1 None [7%Z] :: [] /\
  coeffCalculator (ex_env false false vzero ex_unbounded_faces) ex_kernel 1 =
    Err (NotBounded "momentum_x_advection" (Some 7%Z)).
Proof.
  split; [reflexivity|].
  apply (unbounded_face_error (ex_env false false vzero ex_unbounded_faces) ex_kernel 1
           [] [] (ex_visit 1 None [7%Z]) vzero).
  - reflexivity.
  - reflexivity.
  - reflexivity.
  - repeat constructor; vm_compute; discriminate.
Defined.

Lemma existsb_not_flow (b : Boundaries) (tags : list Z) :
  Forall (fun t => t ∉ flow_boundaries b) tags ->
  existsb (fun bc_id => bool_decide (bc_id ∈ flow_boundaries b)) tags = false.
Proof.
  induction 1 as [|t tags Ht _ IH]; [reflexivity|].
  simpl. rewrite (bool_decide_eq_false_2 _ Ht). exact IH.
Qed.

(** C3 (as stated): a boundary face that is on no flow boundary but has a
    flux BC is skipped, although the claim's predicate keeps it. *)
Lemma skip_flux_bc_cex :
  skipForBoundary (ex_env true false vzero ex_faces) ex_kernel (ex_face 0 None [1%Z]) = true /\
  spec_skip (ex_env true false vzero ex_faces) ex_kernel (ex_face 0 None [1%Z]) = false.
Proof. split; vm_compute; reflexivity. Qed.

(** C3 (amended): [skipForBoundary] holds exactly on boundary faces that
    carry a flux BC, or that are on no flow boundary and carry no
    Dirichlet BC.  Internal faces are never skipped; a face on no flow
    boundary (e.g. a wall) without flux or Dirichlet BC contributes zero
    residual. *)
Theorem skip_for_boundary_exact (env : Env) (k : Kernel) (fi : FaceInfo) :
  skipForBoundary env k fi =
    onBoundary env fi &&
    (has_flux_bc env fi ||
     negb (existsb (fun bc_id => bool_decide (bc_id ∈ flow_boundaries (k_bnds k)))
             (fi_boundaryIDs fi)) && negb (has_dirichlet_bc env fi)) /\
  (onBoundary env fi = false -> forall r, face_residual env k fi r = r) /\
  (onBoundary env fi = true -> has_flux_bc env fi = false ->
   Forall (fun t => t ∉ flow_boundaries (k_bnds k)) (fi_boundaryIDs fi) ->
   has_dirichlet_bc env fi = false -> forall r, face_residual env k fi r = 0).
Proof.
  assert (Heq : skipForBoundary env k fi =
    onBoundary env fi &&
    (has_flux_bc env fi ||
     negb (existsb (fun bc_id => bool_decide (bc_id ∈ flow_boundaries (k_bnds k)))
             (fi_boundaryIDs fi)) && negb (has_dirichlet_bc env fi))).
  { unfold skipForBoundary.
    destruct (onBoundary env fi), (has_flux_bc env fi),
      (existsb _ (fi_boundaryIDs fi)), (has_dirichlet_bc env fi); reflexivity. }
  split; [exact Heq|split].
  - intros Hb r. unfold face_residual. rewrite Heq, Hb. reflexivity.
  - intros Hb Hf Hnf Hd r. unfold face_residual. rewrite Heq, Hb, Hf, Hd.
    rewrite (existsb_not_flow _ _ Hnf). reflexivity.
Qed.

Lemma skip_for_boundary_exact_witness :
  face_residual (ex_env false false vzero ex_faces) ex_kernel (ex_face 0 None [1%Z]) 5 = 0.
Proof.
  apply (skip_for_boundary_exact (ex_env false false vzero ex_faces) ex_kernel
           (ex_face 0 None [1%Z])).
  - reflexivity.
  - reflexivity.
  - repeat constructor. vm_compute. discriminate.
  - reflexivity.
Defined.

Lemma forallb_Forall_true (l : list bool) :
  Forall (fun fd => fd = true) l -> forallb (fun fd => fd) l = true.
Proof. induction 1 as [|x l Hx _ IH]; simpl; [reflexivity|]. rewrite Hx. exact IH. Qed.

Lemma forallb_Forall_false (l : list bool) :
  Forall (fun fd => fd = false) l -> forallb negb l = true.
Proof. induction 1 as [|x l Hx _ IH]; simpl; [reflexivity|]. rewrite Hx. exact IH. Qed.

Lemma forallb_id_In_false (l : list bool) :
  In false l -> forallb (fun fd => fd) l = false.
Proof.
  induction l as [|x l IH]; simpl; [tauto|].
  intros [-> | H]; [reflexivity|]. rewrite IH by exact H. apply andb_false_r.
Qed.

Lemma forallb_negb_In_true (l : list bool) :
  In true l -> forallb negb l = false.
Proof.
  induction l as [|x l IH]; simpl; [tauto|].
  intros [-> | H]; [reflexivity|]. rewrite IH by exact H. apply andb_false_r.
Qed.

(** C6: the classification of one boundary id from its active flow BCs.
    No flow BC: nothing changes.  Any flow BC: whenever the setup succeeds
    the id is a flow boundary (in every build).  All flow BCs fully
    developed: the id is a flow and a fully developed flow boundary.
    None fully developed: a flow boundary, the fully developed set is
    unchanged.  Fully developed and other flow BCs mixed on the id: a
    debug build fails an assertion. *)
Theorem setup_flow_classification (debug : bool) (flow_bcs : list bool) (bnd_id : Z)
    (b : Boundaries) :
  (flow_bcs = [] -> setupFlowBoundaries debug flow_bcs bnd_id b = Ok b) /\
  (flow_bcs <> [] -> forall b', setupFlowBoundaries debug flow_bcs bnd_id b = Ok b' ->
     bnd_id ∈ flow_boundaries b' /\ bnd_id ∈ all_boundaries b') /\
  (flow_bcs <> [] -> Forall (fun fd => fd = true) flow_bcs ->
     exists b', setupFlowBoundaries debug flow_bcs bnd_id b = Ok b' /\
       bnd_id ∈ flow_boundaries b' /\ bnd_id ∈ fully_developed_flow_boundaries b') /\
  (flow_bcs <> [] -> Forall (fun fd => fd = false) flow_bcs ->
     exists b', setupFlowBoundaries debug flow_bcs bnd_id b = Ok b' /\
       bnd_id ∈ flow_boundaries b' /\
       fully_developed_flow_boundaries b' = fully_developed_flow_boundaries b) /\
  (In true flow_bcs -> In false flow_bcs ->
     exists msg, setupFlowBoundaries true flow_bcs bnd_id b = Err (AssertFail msg)).
Proof.
  split; [|split; [|split; [|split]]].
  - intros ->. reflexivity.
  - intros Hne b' Hs. destruct flow_bcs as [|front rest]; [congruence|].
    unfold setupFlowBoundaries in Hs.
    destruct debug; [destruct front;
      [destruct (forallb (fun fd => fd) (true :: rest))
      |destruct (forallb negb (false :: rest))]|];
      simpl in Hs; try discriminate;
      injection Hs as <-; simpl; split; set_solver.
  - intros Hne Hall. destruct flow_bcs as [|front rest]; [congruence|].
    pose proof (forallb_Forall_true _ Hall) as Hf.
    inversion Hall as [|? ? Hfront _]; subst front.
    unfold setupFlowBoundaries. rewrite Hf.
    eexists. split; [destruct debug; reflexivity|]. simpl. split; set_solver.
  - intros Hne Hall. destruct flow_bcs as [|front rest]; [congruence|].
    pose proof (forallb_Forall_false _ Hall) as Hf.
    inversion Hall as [|? ? Hfront _]; subst front.
    unfold setupFlowBoundaries. rewrite Hf.
    eexists. split; [destruct debug; reflexivity|]. simpl. split; [set_solver|reflexivity].
  - intros Ht Hf. destruct flow_bcs as [|front rest]; [destruct Ht|].
    unfold setupFlowBoundaries. destruct front.
    + rewrite (forallb_id_In_false _ Hf). eexists. reflexivity.
    + rewrite (forallb_negb_In_true _ Ht). eexists. reflexivity.
Qed.

Lemma setup_flow_classification_witness :
  (exists b', setupFlowBoundaries true [true; true] 4%Z ex_bnds = Ok b' /\
     4%Z ∈ flow_boundaries b' /\ 4%Z ∈ fully_developed_flow_boundaries b') /\
  (exists msg, setupFlowBoundaries true [false; true] 3%Z ex_bnds = Err (AssertFail msg)).
Proof.
  split.
  - apply (setup_flow_classification true [true; true] 4%Z ex_bnds).
    + discriminate.
    + repeat constructor.
  - apply (setup_flow_classification true [false; true] 3%Z ex_bnds);
      simpl; tauto.
Defined.

Lemma rcCoeff_hit (env : Env) (k : Kernel) (elem : nat) (s : RCStore) (c : vec) :
  cached k s elem = Some c -> rcCoeff env k elem s = Ok (c, s).
Proof.
  unfold cached, rcCoeff.
  destruct (s !! k_app k) as [maps|]; simpl; [|discriminate].
  destruct (maps !! k_tid k) as [my_map|]; simpl; [|discriminate].
  intros ->. reflexivity.
Qed.

(** What [rcCoeff] does on a store: a hit returns the entry and leaves the
    store alone; a miss stores and returns the calculator's value. *)
Lemma rcCoeff_cases (env : Env) (k : Kernel) (elem : nat) (s s' : RCStore) (c : vec) :
  rcCoeff env k elem s = Ok (c, s') ->
  exists maps my_map,
    s !! k_app k = Some maps /\ maps !! k_tid k = Some my_map /\
    ((my_map !! elem = Some c /\ s' = s) \/
     (my_map !! elem = None /\ coeffCalculator env k elem = Ok c /\
      s' = <[k_app k := <[k_tid k := <[elem := c]> my_map]> maps]> s)).
Proof.
  unfold rcCoeff. intros H.
  destruct (s !! k_app k) as [maps|] eqn:Hs; [|discriminate].
  destruct (maps !! k_tid k) as [my_map|] eqn:Ht; [|discriminate].
  exists maps, my_map. split; [first [reflexivity | exact Hs]|]. split; [first [reflexivity | exact Ht]|].
  destruct (my_map !! elem) as [c0|] eqn:He.
  - injection H as <- <-. left. split; reflexivity.
  - destruct (coeffCalculator env k elem) as [c1|err] eqn:Hc; simpl in H; [|discriminate].
    injection H as <- <-. right. split; [reflexivity|split; reflexivity].
Qed.

Lemma rcCoeff_grows (env : Env) (k : Kernel) (elem : nat) (s s' : RCStore) (c : vec) :
  rcCoeff env k elem s = Ok (c, s') ->
  cached k s' elem = Some c /\
  (forall e c0, cached k s e = Some c0 -> cached k s' e = Some c0) /\
  (forall k' e, k_app k' <> k_app k \/ k_tid k' <> k_tid k -> cached k' s' e = cached k' s e).
Proof.
  intros H.
  destruct (rcCoeff_cases _ _ _ _ _ _ H) as (maps & my_map & Hs & Ht & Hcase).
  destruct Hcase as [[He ->] | (He & _ & ->)].
  - split; [|split; [intros e c0 Hc; exact Hc|intros; reflexivity]].
    unfold cached. rewrite Hs. simpl. rewrite Ht. exact He.
  - assert (Hlen : (k_tid k < length maps)%nat) by (eapply lookup_lt_Some; exact Ht).
    split; [|split].
    + unfold cached. rewrite lookup_insert_eq. simpl.
      rewrite list_lookup_insert_eq by exact Hlen. simpl. apply lookup_insert_eq.
    + intros e c0 Hc. unfold cached in Hc |- *. rewrite Hs in Hc. simpl in Hc.
      rewrite Ht in Hc. simpl in Hc.
      rewrite lookup_insert_eq. simpl.
      rewrite list_lookup_insert_eq by exact Hlen. simpl.
      destruct (decide (e = elem)) as [->|Hne]; [congruence|].
      rewrite lookup_insert_ne by congruence. exact Hc.
    + intros k' e [Ha|Htid]; unfold cached.
      * rewrite lookup_insert_ne by congruence. reflexivity.
      * destruct (decide (k_app k' = k_app k)) as [Ha|Ha].
        -- rewrite Ha, lookup_insert_eq, Hs. simpl.
           rewrite list_lookup_insert_ne by congruence. reflexivity.
        -- rewrite lookup_insert_ne by congruence. reflexivity.
Qed.

(** [cached] sees only the app and the thread of a kernel. *)
Lemma cached_slot (k k' : Kernel) (s : RCStore) (e : nat) :
  k_app k' = k_app k -> k_tid k' = k_tid k -> cached k' s e = cached k s e.
Proof. intros Ha Ht. unfold cached. rewrite Ha, Ht. reflexivity. Qed.

(** A successful lookup by any kernel keeps every entry of every cache. *)
Lemma rcCoeff_keeps (env' : Env) (k' k : Kernel) (e' e : nat) (s s1 : RCStore) (c' c : vec) :
  rcCoeff env' k' e' s = Ok (c', s1) -> cached k s e = Some c -> cached k s1 e = Some c.
Proof.
  intros H Hc. destruct (rcCoeff_grows _ _ _ _ _ _ H) as (_ & G & O).
  destruct (decide (k_app k = k_app k')) as [Ha|Ha];
    [destruct (decide (k_tid k = k_tid k')) as [Ht|Ht]|].
  - rewrite (cached_slot k' k) by assumption.
    rewrite (cached_slot k' k) in Hc by assumption. apply G. exact Hc.
  - rewrite (O k e) by (right; exact Ht). exact Hc.
  - rewrite (O k e) by (left; exact Ha). exact Hc.
Qed.

(** A successful clear empties the caller's map and touches no other app
    or thread. *)
Lemma clearRCCoeffs_spec (k : Kernel) (s s' : RCStore) :
  clearRCCoeffs k s = Ok s' ->
  (forall e, cached k s' e = None) /\
  (forall k' e, k_app k' <> k_app k \/ k_tid k' <> k_tid k -> cached k' s' e = cached k' s e).
Proof.
  unfold clearRCCoeffs. intros H.
  destruct (s !! k_app k) as [maps|] eqn:Hs; [|discriminate].
  destruct (maps !! k_tid k) as [m|] eqn:Ht; [|discriminate].
  injection H as <-.
  assert (Hlen : (k_tid k < length maps)%nat) by (eapply lookup_lt_Some; exact Ht).
  split.
  - intros e. unfold cached. rewrite lookup_insert_eq. simpl.
    rewrite list_lookup_insert_eq by exact Hlen. simpl. apply lookup_empty.
  - intros k' e Hne. unfold cached.
    destruct (decide (k_app k' = k_app k)) as [Ha|Ha].
    + destruct Hne as [Hne|Hne]; [congruence|].
      rewrite Ha, lookup_insert_eq, Hs. simpl.
      rewrite list_lookup_insert_ne by congruence. reflexivity.
    + rewrite lookup_insert_ne by congruence. reflexivity.
Qed.

(** A clear succeeds wherever the caller has an entry. *)
Lemma clearRCCoeffs_exists (k : Kernel) (s : RCStore) (e : nat) (c : vec) :
  cached k s e = Some c -> exists s', clearRCCoeffs k s = Ok s'.
Proof.
  unfold cached, clearRCCoeffs.
  destruct (s !! k_app k) as [maps|]; simpl; [|discriminate].
  destruct (maps !! k_tid k) as [m|]; simpl; [|discriminate].
  intros _. eexists. reflexivity.
Qed.

(** After a clear, a lookup by the same kernel returns the calculator's
    value (or its error). *)
Lemma clearRCCoeffs_recompute (env : Env) (k : Kernel) (elem : nat) (s s' : RCStore) :
  clearRCCoeffs k s = Ok s' ->
  (let? r := rcCoeff env k elem s' in Ok (fst r)) = coeffCalculator env k elem.
Proof.
  unfold clearRCCoeffs. intros H.
  destruct (s !! k_app k) as [maps|] eqn:Hs; [|discriminate].
  destruct (maps !! k_tid k) as [m|] eqn:Ht; [|discriminate].
  injection H as <-.
  assert (Hlen : (k_tid k < length maps)%nat) by (eapply lookup_lt_Some; exact Ht).
  unfold rcCoeff. rewrite lookup_insert_eq.
  rewrite list_lookup_insert_eq by exact Hlen. rewrite lookup_empty.
  destruct (coeffCalculator env k elem); reflexivity.
Qed.

(** Activity short of a clear of the kernel's own map keeps its entries. *)
Lemma cache_activity_keeps (k : Kernel) (s s1 : RCStore) (e : nat) (c : vec) :
  cache_activity k s s1 -> cached k s e = Some c -> cached k s1 e = Some c.
Proof.
  induction 1 as [s|env' k' e' c' s s1 s2 H _ IH|k' s s1 s2 Hne H _ IH]; intros Hc.
  - exact Hc.
  - apply IH. eapply rcCoeff_keeps; eassumption.
  - apply IH. destruct (clearRCCoeffs_spec _ _ _ H) as [_ Ho].
    rewrite Ho; [exact Hc|]. destruct Hne as [Hne|Hne]; [left|right]; congruence.
Qed.

(** C7: the per-thread coefficient cache.  A successful lookup computes the
    coefficient with the calculator exactly when the cell has no entry
    (otherwise it returns the entry and leaves the cache unchanged), and
    memoizes it.  Until the kernel's own map is cleared (whatever lookups
    of other cells, by this or any kernel, and whatever clears of other
    apps or threads happen in between) the entry stays, and a later
    lookup returns the same value whatever the solution state then is,
    without recomputing and without changing the cache.
    [clearRCCoeffs] empties the calling thread's map,
    leaves every other app and thread alone, and the next lookup returns
    the calculator's value at the then-current state. *)
Theorem rc_coeff_memo (env1 env2 env3 : Env) (k : Kernel) (elem : nat)
    (s s' : RCStore) (c : vec) :
  rcCoeff env1 k elem s = Ok (c, s') ->
  (cached k s elem = None -> coeffCalculator env1 k elem = Ok c) /\
  (forall c0, cached k s elem = Some c0 -> c = c0 /\ s' = s) /\
  cached k s' elem = Some c /\
  forall s1, cache_activity k s' s1 ->
    cached k s1 elem = Some c /\
    rcCoeff env2 k elem s1 = Ok (c, s1) /\
    exists s'', clearRCCoeffs k s1 = Ok s'' /\
      (forall e, cached k s'' e = None) /\
      (forall k' e, k_app k' <> k_app k \/ k_tid k' <> k_tid k ->
         cached k' s'' e = cached k' s1 e) /\
      (let? r := rcCoeff env3 k elem s'' in Ok (fst r)) = coeffCalculator env3 k elem.
Proof.
  intros H.
  destruct (rcCoeff_cases _ _ _ _ _ _ H) as (maps & my_map & Hs & Ht & Hcase).
  assert (Hcs : cached k s elem = my_map !! elem)
    by (unfold cached; rewrite Hs; simpl; rewrite Ht; reflexivity).
  assert (Hcached : cached k s' elem = Some c).
  { destruct Hcase as [[He ->] | (He & Hc & ->)].
    - rewrite Hcs. exact He.
    - unfold cached. rewrite lookup_insert_eq. simpl.
      rewrite list_lookup_insert_eq by (eapply lookup_lt_Some; exact Ht). simpl.
      apply lookup_insert_eq. }
  split; [|split; [|split; [exact Hcached|]]].
  - intros Hn. rewrite Hcs in Hn.
    destruct Hcase as [[He _] | (_ & Hc & _)]; [congruence|exact Hc].
  - intros c0 Hc0. rewrite Hcs in Hc0.
    destruct Hcase as [[He ->] | (He & _ & _)]; [|congruence].
    split; [congruence|reflexivity].
  - intros s1 Hact.
    assert (Hc1 : cached k s1 elem = Some c) by (eapply cache_activity_keeps; eassumption).
    split; [exact Hc1|split; [apply rcCoeff_hit; exact Hc1|]].
    destruct (clearRCCoeffs_exists _ _ _ _ Hc1) as [s'' Hcl].
    destruct (clearRCCoeffs_spec _ _ _ Hcl) as [Hn Ho].
    exists s''. split; [exact Hcl|split; [exact Hn|split; [exact Ho|]]].
    exact (clearRCCoeffs_recompute env3 k elem s1 s'' Hcl).
Qed.

Lemma rc_coeff_memo_witness :
  exists c s' c0 s1,
    rcCoeff (ex_env false false vzero ex_faces) ex_kernel 1
      (construct_store ex_kernel 1 ∅) = Ok (c, s') /\
    rcCoeff (ex_env false false vzero ex_faces) ex_kernel 0 s' = Ok (c0, s1) /\
    rcCoeff (ex_env true true (Vec 5 0 0) ex_unbounded_faces) ex_kernel 1 s1 = Ok (c, s1).
Proof.
  assert (H : exists c s' c0 s1,
    rcCoeff (ex_env false false vzero ex_faces) ex_kernel 1
      (construct_store ex_kernel 1 ∅) = Ok (c, s') /\
    rcCoeff (ex_env false false vzero ex_faces) ex_kernel 0 s' = Ok (c0, s1))
    by (do 4 eexists; split; reflexivity).
  destruct H as (c & s' & c0 & s1 & H1 & H2).
  exists c, s', c0, s1. split; [exact H1|split; [exact H2|]].
  destruct (rc_coeff_memo (ex_env false false vzero ex_faces)
              (ex_env true true (Vec 5 0 0) ex_unbounded_faces)
              (ex_env false false vzero ex_faces) ex_kernel 1
              (construct_store ex_kernel 1 ∅) s' c H1) as (_ & _ & _ & Hs).
  destruct (Hs s1 (activity_lookup ex_kernel _ ex_kernel 0 c0 s' s1 s1 H2
                     (activity_done ex_kernel s1))) as (_ & Hr & _).
  exact Hr.
Defined.

Lemma vec_ext (a b : vec) : (forall i, (i < 3)%nat -> vget a i = vget b i) -> a = b.
Proof.
  intros H. destruct a as [a0 a1 a2], b as [b0 b1 b2].
  pose proof (H 0%nat ltac:(lia)) as E0. pose proof (H 1%nat ltac:(lia)) as E1.
  pose proof (H 2%nat ltac:(lia)) as E2. simpl in E0, E1, E2.
  subst. reflexivity.
Qed.

Lemma interpolate_average_get (fi : FaceInfo) (a b : vec) (i : nat) :
  vget (interpolate_average fi true a b) i =
  fi_gC fi * vget a i + (1 - fi_gC fi) * vget b i.
Proof. destruct i as [|[|[|i]]]; simpl; [reflexivity..|ring]. Qed.

Lemma for_range_set_get (dim : nat) (f : nat -> R) (v : vec) (j : nat) :
  (dim <= 3)%nat ->
  vget (for_range dim (fun w i => vset w i (f i)) v) j =
  if decide (j < dim)%nat then f j else vget v j.
Proof. intros Hd. exact (for_range_get dim (fun _ i => f i) v j Hd). Qed.

Lemma for_range_sub_get (dim : nat) (h : nat -> R) (v : vec) (j : nat) :
  (dim <= 3)%nat ->
  vget (for_range dim (fun w i => vset w i (vget w i - h i)) v) j =
  if decide (j < dim)%nat then vget v j - h j else vget v j.
Proof. intros Hd. exact (for_range_get dim (fun x i => x - h i) v j Hd). Qed.

Lemma nonzero_below_spec (dim : nat) (a : vec) :
  nonzero_below dim a = true <-> forall i, (i < dim)%nat -> vget a i <> 0.
Proof.
  unfold nonzero_below. rewrite forallb_forall. split.
  - intros H i Hi Hz. specialize (H i). rewrite in_seq in H.
    destruct (Req_dec_T (vget a i) 0); [|contradiction].
    discriminate (H ltac:(lia)).
  - intros H i Hi. rewrite in_seq in Hi.
    destruct (Req_dec_T (vget a i) 0) as [Hz|]; [|reflexivity].
    exfalso. exact (H i ltac:(lia) Hz).
Qed.

(** The Rhie-Chow branch of [interpolate] once both coefficient lookups
    have succeeded and the debug-build checks pass. *)
Lemma interpolate_rc_unfold (env : Env) (k : Kernel) (m : InterpMethod) (fi : FaceInfo)
    (v : vec) (s s1 s2 : RCStore) (n : nat) (ea na : vec) :
  m <> Average ->
  onBoundary env fi = false ->
  fi_neighbor fi = Some n ->
  rcCoeff env k (fi_elem fi) s = Ok (ea, s1) ->
  rcCoeff env k n s1 = Ok (na, s2) ->
  getCoordSystem env (fi_elem_subdomain fi) = getCoordSystem env (fi_neighbor_subdomain fi) ->
  (forall i, (i < k_dim k)%nat -> vget ea i <> 0) ->
  (forall i, (i < k_dim k)%nat -> vget na i <> 0) ->
  let elem_volume :=
    fi_elemVolume fi * coordTransformFactor env (fi_elem_subdomain fi) (fi_elemCentroid fi) in
  let neighbor_volume :=
    fi_neighborVolume fi *
    coordTransformFactor env (fi_neighbor_subdomain fi) (fi_neighborCentroid fi) in
  let elem_D := for_range (k_dim k) (fun d i => vset d i (elem_volume / vget ea i)) vzero in
  let neighbor_D := for_range (k_dim k) (fun d i => vset d i (neighbor_volume / vget na i)) vzero in
  let face_D := interpolate_average fi true elem_D neighbor_D in
  interpolate env k m fi v s =
  Ok (for_range (k_dim k)
        (fun w i => vset w i (vget w i - vget face_D i *
                      (vget (adGradSln_p env fi) i - vget (uncorrectedAdGradSln_p env fi) i)))
        (interpolate_average fi true (vel_elem_face env fi) (vel_neighbor_face env fi)),
      s2).
Proof.
  intros Hm Hb Hn H1 H2 Hc Hea Hna.
  apply nonzero_below_spec in Hea, Hna.
  assert (Hc' : Nat.eqb (getCoordSystem env (fi_elem_subdomain fi))
                        (getCoordSystem env (fi_neighbor_subdomain fi)) = true)
    by (apply Nat.eqb_eq; exact Hc).
  unfold interpolate. rewrite Hb.
  destruct m; [congruence| |]; rewrite Hn, H1; simpl; rewrite Hc', Hea; simpl;
    rewrite H2; simpl; rewrite Hna; reflexivity.
Qed.

(** A successful Rhie-Chow interpolation on an internal face went through
    both lookups and passed the debug-build checks. *)
Lemma interpolate_rc_inv (env : Env) (k : Kernel) (m : InterpMethod) (fi : FaceInfo)
    (v : vec) (s s' : RCStore) (w : vec) :
  m <> Average ->
  onBoundary env fi = false ->
  interpolate env k m fi v s = Ok (w, s') ->
  exists n ea na s1,
    fi_neighbor fi = Some n /\
    rcCoeff env k (fi_elem fi) s = Ok (ea, s1) /\
    rcCoeff env k n s1 = Ok (na, s') /\
    getCoordSystem env (fi_elem_subdomain fi) = getCoordSystem env (fi_neighbor_subdomain fi) /\
    (forall i, (i < k_dim k)%nat -> vget ea i <> 0) /\
    (forall i, (i < k_dim k)%nat -> vget na i <> 0).
Proof.
  intros Hm Hb H. unfold interpolate in H. rewrite Hb in H.
  assert (H' : (match fi_neighbor fi with
    | None => Err (AssertFail "We should be on an internal face...")
    | Some neighbor =>
        let? r1 := rcCoeff env k (fi_elem fi) s in
        if negb (Nat.eqb (getCoordSystem env (fi_elem_subdomain fi))
                         (getCoordSystem env (fi_neighbor_subdomain fi))) then
          Err (AssertFail "Coordinate systems must be the same between the two elements")
        else
        if negb (nonzero_below (k_dim k) (fst r1)) then
          Err (AssertFail "We should not be dividing by zero")
        else
        let? r2 := rcCoeff env k neighbor (snd r1) in
        if negb (nonzero_below (k_dim k) (fst r2)) then
          Err (AssertFail "We should not be dividing by zero")
        else Ok (w, snd r2)
    end) = Ok (w, s')).
  { destruct m; [congruence| |];
      (destruct (fi_neighbor fi) as [n|]; [|exact H]);
      (destruct (rcCoeff env k (fi_elem fi) s) as [[ea s1]|e]; [|exact H]); simpl in H |- *;
      (destruct (Nat.eqb _ _); [|exact H]); simpl in H |- *;
      (destruct (nonzero_below (k_dim k) ea); [|exact H]); simpl in H |- *;
      (destruct (rcCoeff env k n s1) as [[na s2]|e]; [|exact H]); simpl in H |- *;
      (destruct (nonzero_below (k_dim k) na); [|exact H]); simpl in H |- *;
      injection H as _ <-; reflexivity. }
  clear H.
  destruct (fi_neighbor fi) as [n|] eqn:Hn; [|discriminate].
  destruct (rcCoeff env k (fi_elem fi) s) as [[ea s1]|e] eqn:H1; simpl in H'; [|discriminate].
  destruct (Nat.eqb _ _) eqn:Hc; simpl in H'; [|discriminate].
  destruct (nonzero_below (k_dim k) ea) eqn:Hea; simpl in H'; [|discriminate].
  destruct (rcCoeff env k n s1) as [[na s2]|e] eqn:H2; simpl in H'; [|discriminate].
  destruct (nonzero_below (k_dim k) na) eqn:Hna; simpl in H'; [|discriminate].
  injection H' as H'. subst s2.
  exists n, ea, na, s1.
  split; [first [exact Hn|reflexivity]|split; [first [exact H1|reflexivity]|split; [exact H2|split]]].
  - apply Nat.eqb_eq. exact Hc.
  - split; apply nonzero_below_spec; assumption.
Qed.

(** On the internal face of cell 0 of the example, with [ex_store], both
    coefficients are cache hits and the debug-build checks pass. *)
Lemma ex_interpolate_rc (flux dirichlet : bool) (g : vec) (m : InterpMethod) :
  m <> Average ->
  exists w, interpolate (ex_env flux dirichlet g ex_faces) ex_kernel m
              (ex_face 0 (Some 1%nat) []) vzero ex_store = Ok (w, ex_store).
Proof.
  intros Hm. eexists.
  rewrite (interpolate_rc_unfold _ _ m _ _ ex_store ex_store ex_store 1%nat
             (Vec 2 4 0) (Vec 4 4 0)).
  - reflexivity.
  - exact Hm.
  - reflexivity.
  - reflexivity.
  - reflexivity.
  - reflexivity.
  - reflexivity.
  - intros i Hi. simpl in Hi. destruct i as [|[|i]]; simpl; [lra|lra|lia].
  - intros i Hi. simpl in Hi. destruct i as [|[|i]]; simpl; [lra|lra|lia].
Qed.

(** C1: on an internal face, Rhie-Chow mode returns, for each component
    [i < dim], the average-mode velocity minus
    [D_face(i) * (grad_p(i) - unc_grad_p(i))], where [D(i)] is the cell
    volume times the coordinate factor at the cell centroid divided by the
    cell's coefficient [a(i)] (as returned by [rcCoeff]), for the element
    and the neighbour, and [D_face] is their face average with the
    geometric weight [gC]; components past [dim] keep the average.  This
    holds when the two cells use the same coordinate system and no
    coefficient [a(i)], [i < dim], is zero: the debug build asserts both
    (and a zero coefficient would be a division by zero). *)
Theorem rhie_chow_interpolation (env : Env) (k : Kernel) (fi : FaceInfo) (v : vec)
    (s s1 s2 : RCStore) (n : nat) (ea na : vec) :
  (k_dim k <= 3)%nat ->
  onBoundary env fi = false ->
  fi_neighbor fi = Some n ->
  rcCoeff env k (fi_elem fi) s = Ok (ea, s1) ->
  rcCoeff env k n s1 = Ok (na, s2) ->
  getCoordSystem env (fi_elem_subdomain fi) = getCoordSystem env (fi_neighbor_subdomain fi) ->
  (forall i, (i < k_dim k)%nat -> vget ea i <> 0) ->
  (forall i, (i < k_dim k)%nat -> vget na i <> 0) ->
  let avg := interpolate_average fi true (vel_elem_face env fi) (vel_neighbor_face env fi) in
  let D_elem i :=
    fi_elemVolume fi * coordTransformFactor env (fi_elem_subdomain fi) (fi_elemCentroid fi) /
    vget ea i in
  let D_neighbor i :=
    fi_neighborVolume fi *
    coordTransformFactor env (fi_neighbor_subdomain fi) (fi_neighborCentroid fi) /
    vget na i in
  let D_face i := fi_gC fi * D_elem i + (1 - fi_gC fi) * D_neighbor i in
  interpolate env k Average fi v s = Ok (avg, s) /\
  exists w, interpolate env k RhieChow fi v s = Ok (w, s2) /\
    (forall i, (i < k_dim k)%nat ->
       vget w i = vget avg i -
         D_face i * (vget (adGradSln_p env fi) i - vget (uncorrectedAdGradSln_p env fi) i)) /\
    (forall i, (k_dim k <= i)%nat -> vget w i = vget avg i).
Proof.
  intros Hd Hb Hn H1 H2 Hc Hea Hna avg D_elem D_neighbor D_face.
  split.
  - unfold interpolate. rewrite Hb. reflexivity.
  - rewrite (interpolate_rc_unfold env k RhieChow fi v s s1 s2 n ea na)
      by first [discriminate | assumption].
    cbv zeta. eexists. split; [reflexivity|]. split.
    + intros i Hi. rewrite for_range_sub_get by exact Hd.
      destruct (decide (i < k_dim k)%nat); [|lia].
      unfold avg, D_face, D_elem, D_neighbor.
      rewrite !interpolate_average_get, !for_range_set_get by exact Hd.
      destruct (decide (i < k_dim k)%nat); [|lia].
      reflexivity.
    + intros i Hi. rewrite for_range_sub_get by exact Hd.
      destruct (decide (i < k_dim k)%nat); [lia|reflexivity].
Qed.

Lemma rhie_chow_interpolation_witness :
  exists w,
    interpolate (ex_env false false (Vec 2 0 0) ex_faces) ex_kernel RhieChow
      (ex_face 0 (Some 1%nat) []) vzero ex_store = Ok (w, ex_store) /\
    vget w 0 = / 2 * 1 + (1 - / 2) * 3 -
               (/ 2 * (1 * 1 / 2) + (1 - / 2) * (1 * 1 / 4)) * (2 - 1).
Proof.
  edestruct (rhie_chow_interpolation (ex_env false false (Vec 2 0 0) ex_faces) ex_kernel
               (ex_face 0 (Some 1%nat) []) vzero ex_store ex_store ex_store 1%nat
               (Vec 2 4 0) (Vec 4 4 0)) as [_ [w [Hw [Hc _]]]].
  - simpl. lia.
  - reflexivity.
  - reflexivity.
  - reflexivity.
  - reflexivity.
  - reflexivity.
  - intros i Hi. simpl in Hi. destruct i as [|[|i]]; simpl; [lra|lra|lia].
  - intros i Hi. simpl in Hi. destruct i as [|[|i]]; simpl; [lra|lra|lia].
  - exists w. split; [exact Hw|].
    rewrite (Hc 0%nat) by (simpl; lia). reflexivity.
Defined.

(** C9: wherever the corrected and uncorrected face pressure gradients
    agree on the components [i < dim] (as for a linear pressure), any
    result of Rhie-Chow mode is exactly the result of average mode. *)
Theorem rhie_chow_consistent (env : Env) (k : Kernel) (fi : FaceInfo) (v : vec)
    (s s' : RCStore) (w : vec) :
  (k_dim k <= 3)%nat ->
  (forall i, (i < k_dim k)%nat ->
     vget (adGradSln_p env fi) i = vget (uncorrectedAdGradSln_p env fi) i) ->
  interpolate env k RhieChow fi v s = Ok (w, s') ->
  interpolate env k Average fi v s = Ok (w, s).
Proof.
  intros Hd Hg H.
  destruct (onBoundary env fi) eqn:Hb.
  - unfold interpolate in H |- *. rewrite Hb in H |- *.
    injection H as <- <-. reflexivity.
  - destruct (interpolate_rc_inv env k RhieChow fi v s s' w ltac:(discriminate) Hb H)
      as (n & ea & na & s1 & Hn & H1 & H2 & Hc & Hea & Hna).
    rewrite (interpolate_rc_unfold env k RhieChow fi v s s1 s' n ea na)
      in H by first [discriminate | assumption].
    injection H as Hw.
    unfold interpolate. rewrite Hb. f_equal. f_equal.
    rewrite <- Hw. apply vec_ext. intros i _.
    rewrite for_range_sub_get by exact Hd.
    destruct (decide (i < k_dim k)%nat); [|reflexivity].
    rewrite (Hg i) by assumption. ring.
Qed.

Lemma rhie_chow_consistent_witness :
  exists w,
    interpolate (ex_env false false (Vec 1 0 0) ex_faces) ex_kernel RhieChow
      (ex_face 0 (Some 1%nat) []) vzero ex_store = Ok (w, ex_store) /\
    interpolate (ex_env false false (Vec 1 0 0) ex_faces) ex_kernel Average
      (ex_face 0 (Some 1%nat) []) vzero ex_store = Ok (w, ex_store).
Proof.
  destruct (ex_interpolate_rc false false (Vec 1 0 0) RhieChow ltac:(discriminate)) as [w Hw].
  exists w. split; [exact Hw|].
  apply (rhie_chow_consistent (ex_env false false (Vec 1 0 0) ex_faces) ex_kernel
           (ex_face 0 (Some 1%nat) []) vzero ex_store ex_store).
  - simpl. lia.
  - intros i _. reflexivity.
  - exact Hw.
Defined.

(** A face of cell 0 with normal [(1, 0, 0)] on boundary 7 (no
    category) and then the no-slip wall 1: the x component of the
    coefficient gets nothing. *)
Lemma no_slip_wall_coeff_witness :
  action_functor (ex_env false false vzero ex_faces) ex_kernel vzero vzero
    (ex_visit 0 None [7%Z; 1%Z]) =
    Ok (no_slip_wall_contribution (ex_env false false vzero ex_faces) ex_kernel
          (ex_visit 0 None [7%Z; 1%Z]) vzero) /\
  vget (no_slip_wall_contribution (ex_env false false vzero ex_faces) ex_kernel
          (ex_visit 0 None [7%Z; 1%Z]) vzero) 0 = 0.
Proof.
  destruct (no_slip_wall_coeff (ex_env false false vzero ex_faces) ex_kernel vzero vzero
              (ex_visit 0 None [7%Z; 1%Z]) [7%Z] 1%Z []) as [Ha [_ [_ Hx]]].
  - simpl. lia.
  - reflexivity.
  - reflexivity.
  - constructor; [|constructor]. unfold uncategorised. simpl. set_solver.
  - simpl. set_solver.
  - split; [exact (Ha _ eq_refl eq_refl)|].
    rewrite (Hx 0%nat (or_introl eq_refl)). reflexivity.
Defined.

(** A face of cell 0 with normal [(1, 0, 0)] on boundary 7 (no
    category) and then the symmetry plane 5: the y component of the
    coefficient gets nothing. *)
Lemma symmetry_coeff_witness :
  action_functor (ex_env false false vzero ex_faces) ex_kernel vzero vzero
    (ex_visit 0 None [7%Z; 5%Z]) =
    Ok (symmetry_contribution (ex_env false false vzero ex_faces) ex_kernel
          (ex_visit 0 None [7%Z; 5%Z]) vzero) /\
  vget (symmetry_contribution (ex_env false false vzero ex_faces) ex_kernel
          (ex_visit 0 None [7%Z; 5%Z]) vzero) 1 = 0.
Proof.
  destruct (symmetry_coeff (ex_env false false vzero ex_faces) ex_kernel vzero vzero
              (ex_visit 0 None [7%Z; 5%Z]) [7%Z] 5%Z []) as [Ha [_ [_ Hy]]].
  - simpl. lia.
  - reflexivity.
  - reflexivity.
  - constructor; [|constructor]. unfold uncategorised. simpl. set_solver.
  - simpl. set_solver.
  - simpl. set_solver.
  - simpl. set_solver.
  - simpl. set_solver.
  - split; [exact (Ha _ eq_refl eq_refl)|].
    rewrite (Hy 1%nat eq_refl). reflexivity.
Defined.

(** A face of cell 1 on boundary 7 (no category) and then the inlet 3
    (not fully developed). *)
Lemma flow_boundary_coeff_witness :
  exists c,
    action_functor (ex_env false false vzero ex_faces) ex_kernel vzero vzero
      (ex_visit 1 None [7%Z; 3%Z]) = Ok c /\
    vget c 0 = vget c 1.
Proof.
  destruct (flow_boundary_coeff (ex_env false false vzero ex_faces) ex_kernel vzero vzero
              (ex_visit 1 None [7%Z; 3%Z]) [7%Z] 3%Z []) as [c [Ha [Hc _]]].
  - simpl. lia.
  - reflexivity.
  - reflexivity.
  - constructor; [|constructor]. unfold uncategorised. simpl. set_solver.
  - simpl. set_solver.
  - simpl. set_solver.
  - simpl. set_solver.
  - exists c. split; [exact Ha|].
    rewrite (Hc 0%nat), (Hc 1%nat) by (simpl; lia). reflexivity.
Defined.

(** A face of cell 0 on boundaries 7 (no INSFV BC), 5 (symmetry) and 1
    (no-slip wall), in that scan order: the symmetry contribution alone. *)
Lemma boundary_precedence_witness :
  action_functor (ex_env false false vzero ex_faces) ex_kernel vzero vzero
    (ex_visit 0 None [7%Z; 5%Z; 1%Z]) =
  Ok (symmetry_contribution (ex_env false false vzero ex_faces) ex_kernel
        (ex_visit 0 None [7%Z; 5%Z; 1%Z]) vzero).
Proof.
  destruct (boundary_precedence (ex_env false false vzero ex_faces) ex_kernel vzero vzero
              (ex_visit 0 None [7%Z; 5%Z; 1%Z])) as [_ Hp].
  - reflexivity.
  - apply (Hp [7%Z] [1%Z] 5%Z CatSymmetry).
    + reflexivity.
    + repeat constructor.
    + reflexivity.
Defined.

(** * Further properties of the kernels *)

(** ** [setupBoundaries] and [initialSetup] *)

Lemma setupFlowBoundaries_members (debug : bool) (fl : list bool) (bnd_id : Z)
    (b b' : Boundaries) :
  setupFlowBoundaries debug fl bnd_id b = Ok b' ->
  no_slip_wall_boundaries b' = no_slip_wall_boundaries b /\
  slip_wall_boundaries b' = slip_wall_boundaries b /\
  symmetry_boundaries b' = symmetry_boundaries b /\
  forall x,
    (x ∈ flow_boundaries b' <-> x ∈ flow_boundaries b \/ (x = bnd_id /\ fl <> [])) /\
    (x ∈ fully_developed_flow_boundaries b' <->
       x ∈ fully_developed_flow_boundaries b \/ (x = bnd_id /\ head fl = Some true)) /\
    (x ∈ all_boundaries b' <-> x ∈ all_boundaries b \/ (x = bnd_id /\ fl <> [])).
Proof.
  intros H. destruct fl as [|front rest].
  - injection H as <-. split; [reflexivity|split; [reflexivity|split; [reflexivity|]]].
    intros x. simpl. intuition (try discriminate; try congruence).
  - unfold setupFlowBoundaries in H.
    assert (H' : Ok {| no_slip_wall_boundaries := no_slip_wall_boundaries b;
            slip_wall_boundaries := slip_wall_boundaries b;
            flow_boundaries := {[bnd_id]} ∪ flow_boundaries b;
            fully_developed_flow_boundaries :=
              if front then {[bnd_id]} ∪ fully_developed_flow_boundaries b
              else fully_developed_flow_boundaries b;
            symmetry_boundaries := symmetry_boundaries b;
            all_boundaries := {[bnd_id]} ∪ all_boundaries b |} = Ok b').
    { rewrite <- H. destruct debug; [|reflexivity].
      destruct front; [destruct (forallb _ _)|destruct (forallb _ _)];
        simpl in H; try discriminate; reflexivity. }
    injection H' as <-. simpl.
    split; [reflexivity|split; [reflexivity|split; [reflexivity|]]].
    intros x. split; [|split].
    + rewrite elem_of_union, elem_of_singleton. intuition (try discriminate; try congruence).
    + destruct front; simpl.
      * rewrite elem_of_union, elem_of_singleton. intuition congruence.
      * intuition congruence.
    + rewrite elem_of_union, elem_of_singleton. intuition (try discriminate; try congruence).
Qed.

Lemma setupBoundaries_three_members (q : BCQuery) (bnd_id : Z) (b : Boundaries) (x : Z) :
  let b' :=
    setupBoundaries INSFVSymmetryBC (q_bcs q INSFVSymmetryBC bnd_id) bnd_id
      (setupBoundaries INSFVSlipWallBC (q_bcs q INSFVSlipWallBC bnd_id) bnd_id
         (setupBoundaries INSFVNoSlipWallBC (q_bcs q INSFVNoSlipWallBC bnd_id) bnd_id b)) in
  (x ∈ no_slip_wall_boundaries b' <-> x ∈ no_slip_wall_boundaries b \/
     (x = bnd_id /\ q_bcs q INSFVNoSlipWallBC x = true)) /\
  (x ∈ slip_wall_boundaries b' <-> x ∈ slip_wall_boundaries b \/
     (x = bnd_id /\ q_bcs q INSFVSlipWallBC x = true)) /\
  (x ∈ symmetry_boundaries b' <-> x ∈ symmetry_boundaries b \/
     (x = bnd_id /\ q_bcs q INSFVSymmetryBC x = true)) /\
  (x ∈ flow_boundaries b' <-> x ∈ flow_boundaries b) /\
  (x ∈ fully_developed_flow_boundaries b' <-> x ∈ fully_developed_flow_boundaries b) /\
  (x ∈ all_boundaries b' <-> x ∈ all_boundaries b \/
     (x = bnd_id /\ (q_bcs q INSFVNoSlipWallBC x = true \/
                     q_bcs q INSFVSlipWallBC x = true \/ q_bcs q INSFVSymmetryBC x = true))).
Proof.
  cbv zeta. unfold setupBoundaries.
  destruct (q_bcs q INSFVNoSlipWallBC bnd_id) eqn:E1,
           (q_bcs q INSFVSlipWallBC bnd_id) eqn:E2,
           (q_bcs q INSFVSymmetryBC bnd_id) eqn:E3; simpl;
    rewrite ?elem_of_union, ?elem_of_singleton;
    repeat split; intros; destruct_or?; destruct_and?; subst;
    naive_solver congruence.
Qed.

Lemma initialSetup_loop_members (debug : bool) (q : BCQuery) (ids : list Z)
    (b b' : Boundaries) :
  initialSetup_loop debug q ids b = Ok b' ->
  forall x,
    (x ∈ no_slip_wall_boundaries b' <-> x ∈ no_slip_wall_boundaries b \/
       (In x ids /\ q_bcs q INSFVNoSlipWallBC x = true)) /\
    (x ∈ slip_wall_boundaries b' <-> x ∈ slip_wall_boundaries b \/
       (In x ids /\ q_bcs q INSFVSlipWallBC x = true)) /\
    (x ∈ symmetry_boundaries b' <-> x ∈ symmetry_boundaries b \/
       (In x ids /\ q_bcs q INSFVSymmetryBC x = true)) /\
    (x ∈ flow_boundaries b' <-> x ∈ flow_boundaries b \/ (In x ids /\ q_flow q x <> [])) /\
    (x ∈ fully_developed_flow_boundaries b' <-> x ∈ fully_developed_flow_boundaries b \/
       (In x ids /\ head (q_flow q x) = Some true)) /\
    (x ∈ all_boundaries b' <-> x ∈ all_boundaries b \/
       (In x ids /\ (q_flow q x <> [] \/ q_bcs q INSFVNoSlipWallBC x = true \/
                     q_bcs q INSFVSlipWallBC x = true \/ q_bcs q INSFVSymmetryBC x = true))).
Proof.
  revert b. induction ids as [|bnd_id rest IH]; intros b H x.
  - injection H as <-. simpl. intuition.
  - simpl in H.
    destruct (setupFlowBoundaries debug (q_flow q bnd_id) bnd_id b) as [b1|e] eqn:H1;
      simpl in H; [|discriminate].
    destruct (setupFlowBoundaries_members _ _ _ _ _ H1) as (Ens & Esl & Esy & Hm1).
    destruct (IH _ H x) as (IN & IS & IY & IF & ID & IA).
    destruct (setupBoundaries_three_members q bnd_id b1 x) as (N & S & Y & F & D & A).
    destruct (Hm1 x) as (F1 & D1 & A1).
    rewrite Ens in N. rewrite Esl in S. rewrite Esy in Y.
    rewrite IN, N, IS, S, IY, Y, IF, F, F1, ID, D, D1, IA, A, A1.
    simpl In.
    repeat split; intros; destruct_or?; destruct_and?; subst; naive_solver.
Qed.

Lemma setupFlowBoundaries_result (debug : bool) (fl : list bool) (bnd_id : Z) (b : Boundaries) :
  match setupFlowBoundaries debug fl bnd_id b with
  | Ok _ => debug = false \/ flow_bcs_consistent fl = true
  | Err e => debug = true /\ flow_bcs_consistent fl = false /\ exists msg, e = AssertFail msg
  end.
Proof.
  destruct fl as [|front rest]; [right; reflexivity|].
  unfold setupFlowBoundaries, flow_bcs_consistent.
  destruct debug; [|left; reflexivity].
  destruct front; simpl.
  - destruct (forallb (fun fd => fd) rest); simpl; [right; reflexivity|].
    split; [reflexivity|split; [reflexivity|eexists; reflexivity]].
  - destruct (forallb negb rest); simpl; [right; reflexivity|].
    split; [reflexivity|split; [reflexivity|eexists; reflexivity]].
Qed.

Lemma initialSetup_loop_result (debug : bool) (q : BCQuery) (ids : list Z) (b : Boundaries) :
  match initialSetup_loop debug q ids b with
  | Ok _ => debug = false \/ Forall (fun bnd_id => flow_bcs_consistent (q_flow q bnd_id) = true) ids
  | Err e => debug = true /\
             Exists (fun bnd_id => flow_bcs_consistent (q_flow q bnd_id) = false) ids /\
             exists msg, e = AssertFail msg
  end.
Proof.
  revert b. induction ids as [|bnd_id rest IH]; intros b; simpl.
  - right. constructor.
  - pose proof (setupFlowBoundaries_result debug (q_flow q bnd_id) bnd_id b) as Hs.
    destruct (setupFlowBoundaries debug (q_flow q bnd_id) bnd_id b) as [b1|e]; simpl.
    + specialize (IH (setupBoundaries INSFVSymmetryBC (q_bcs q INSFVSymmetryBC bnd_id) bnd_id
         (setupBoundaries INSFVSlipWallBC (q_bcs q INSFVSlipWallBC bnd_id) bnd_id
            (setupBoundaries INSFVNoSlipWallBC (q_bcs q INSFVNoSlipWallBC bnd_id) bnd_id b1)))).
      destruct (initialSetup_loop _ _ _ _) as [b'|e].
      * destruct IH as [->|IH]; [left; reflexivity|].
        destruct Hs as [->|Hs]; [left; reflexivity|]. right. constructor; assumption.
      * destruct IH as (-> & Hex & Hmsg). split; [reflexivity|split; [|exact Hmsg]].
        apply Exists_cons_tl. exact Hex.
    + destruct Hs as (-> & Hc & Hmsg). split; [reflexivity|split; [|exact Hmsg]].
      apply Exists_cons_hd. exact Hc.
Qed.

(** [initialSetup] from the empty sets of a new kernel, for each boundary
    id: its membership in each category set is exactly the warehouse query
    on it, for the ids connected to the kernel's blocks, and nothing else
    is in any set. *)
Theorem initial_setup_classification (debug : bool) (q : BCQuery)
    (all_connected_boundaries : list Z) (b : Boundaries) :
  initialSetup debug q all_connected_boundaries = Ok b ->
  forall x,
    (x ∈ no_slip_wall_boundaries b <->
       In x all_connected_boundaries /\ q_bcs q INSFVNoSlipWallBC x = true) /\
    (x ∈ slip_wall_boundaries b <->
       In x all_connected_boundaries /\ q_bcs q INSFVSlipWallBC x = true) /\
    (x ∈ symmetry_boundaries b <->
       In x all_connected_boundaries /\ q_bcs q INSFVSymmetryBC x = true) /\
    (x ∈ flow_boundaries b <-> In x all_connected_boundaries /\ q_flow q x <> []) /\
    (x ∈ fully_developed_flow_boundaries b <->
       In x all_connected_boundaries /\ head (q_flow q x) = Some true).
Proof.
  intros H x. unfold initialSetup in H.
  destruct (initialSetup_loop_members _ _ _ _ _ H x) as (N & S & Y & F & D & _).
  rewrite N, S, Y, F, D. simpl. set_solver.
Qed.

(** After [initialSetup], [_all_boundaries] is exactly the union of the
    flow, no-slip wall, slip wall and symmetry sets, and every fully
    developed flow boundary is a flow boundary. *)
Theorem initial_setup_all_boundaries (debug : bool) (q : BCQuery)
    (all_connected_boundaries : list Z) (b : Boundaries) :
  initialSetup debug q all_connected_boundaries = Ok b ->
  all_boundaries b = flow_boundaries b ∪ no_slip_wall_boundaries b ∪
                     slip_wall_boundaries b ∪ symmetry_boundaries b /\
  fully_developed_flow_boundaries b ⊆ flow_boundaries b.
Proof.
  intros H. unfold initialSetup in H.
  pose proof (initialSetup_loop_members _ _ _ _ _ H) as M. simpl in M.
  split.
  - apply set_eq. intros x.
    destruct (M x) as (N & S & Y & F & D & A).
    rewrite !elem_of_union, A, N, S, Y, F. set_solver.
  - intros x. destruct (M x) as (_ & _ & _ & F & D & _).
    rewrite D, F. intros [Hx|[Hin Hh]]; [set_solver|].
    right. split; [exact Hin|]. intros Hnil. rewrite Hnil in Hh. discriminate.
Qed.

(** [initialSetup] never fails in a release build; in a debug build it
    succeeds exactly when, on every connected boundary, the flow BCs are
    all fully developed or all not, and otherwise stops on a failed
    assertion. *)
Theorem initial_setup_success (q : BCQuery) (all_connected_boundaries : list Z) :
  (exists b, initialSetup false q all_connected_boundaries = Ok b) /\
  ((exists b, initialSetup true q all_connected_boundaries = Ok b) <->
   Forall (fun bnd_id => flow_bcs_consistent (q_flow q bnd_id) = true)
     all_connected_boundaries) /\
  (forall e, initialSetup true q all_connected_boundaries = Err e ->
     exists msg, e = AssertFail msg).
Proof.
  unfold initialSetup. split; [|split].
  - pose proof (initialSetup_loop_result false q all_connected_boundaries empty_boundaries) as R.
    destruct (initialSetup_loop _ _ _ _) as [b|e]; [eexists; reflexivity|].
    destruct R as [R _]. discriminate.
  - pose proof (initialSetup_loop_result true q all_connected_boundaries empty_boundaries) as R.
    destruct (initialSetup_loop _ _ _ _) as [b|e].
    + split; [intros _|intros _; eexists; reflexivity].
      destruct R as [R|R]; [discriminate|exact R].
    + destruct R as (_ & Hex & _). split; [intros [b' Hb']; discriminate|].
      intros Hall. exfalso.
      apply Exists_exists in Hex. destruct Hex as (y & Hy & Hc).
      rewrite Forall_forall in Hall. rewrite (Hall y Hy) in Hc. discriminate.
  - intros e He.
    pose proof (initialSetup_loop_result true q all_connected_boundaries empty_boundaries) as R.
    rewrite He in R. destruct R as (_ & _ & R). exact R.
Qed.

Lemma initial_setup_classification_witness :
  exists b, initialSetup true ex_query ex_connected_boundaries = Ok b /\
    (4%Z ∈ fully_developed_flow_boundaries b <->
       In 4%Z ex_connected_boundaries /\ head (q_flow ex_query 4%Z) = Some true).
Proof.
  eexists. split; [reflexivity|].
  apply (initial_setup_classification true ex_query ex_connected_boundaries); reflexivity.
Defined.

Lemma initial_setup_all_boundaries_witness :
  exists b, initialSetup true ex_query ex_connected_boundaries = Ok b /\
    all_boundaries b = flow_boundaries b ∪ no_slip_wall_boundaries b ∪
                       slip_wall_boundaries b ∪ symmetry_boundaries b.
Proof.
  eexists. split; [reflexivity|].
  apply (initial_setup_all_boundaries true ex_query ex_connected_boundaries); reflexivity.
Defined.

(** ** The constructor *)

(** A successful construction guarantees the pressure and [u] variables
    have the INSFV types, a [v] velocity variable in two or more
    dimensions, and only that a [w] parameter is given in three
    dimensions; the velocity interpolation method is the one named, and
    [force_boundary_execution] and [boundaries_to_force] are unset. *)
Theorem construct_success (p : PredictorParams) (k : Kernel) (m : InterpMethod) :
  construct p = inr (k, m) ->
  prm_pressure_is_insfv p = true /\ prm_u_is_insfv p = true /\
  ((2 <= prm_dim p)%nat -> k_has_v k = true) /\
  ((3 <= prm_dim p)%nat -> prm_w_given p = true) /\
  k_has_w k = prm_w_given p && prm_w_is_insfv p /\
  k_dim k = prm_dim p /\ k_tid k = prm_tid p /\ k_app k = prm_app p /\
  ((m = Average /\ prm_velocity_interp_method p = "average") \/
   (m = RhieChow /\ prm_velocity_interp_method p = "rc")) /\
  prm_force_boundary_execution p = false /\ prm_boundaries_to_force p = [].
Proof.
  unfold construct. intros H. cbv zeta in H.
  destruct (prm_pressure_is_insfv p); cbn [negb] in H; [|discriminate].
  destruct (prm_u_is_insfv p); cbn [negb] in H; [|discriminate].
  destruct ((2 <=? prm_dim p)%nat && negb (prm_v_given p && prm_v_is_insfv p)) eqn:Hv;
    [discriminate|].
  destruct ((3 <=? prm_dim p)%nat && negb (prm_w_given p)) eqn:Hw; [discriminate|].
  assert (Hm : exists m',
    ((m' = Average /\ prm_velocity_interp_method p = "average") \/
     (m' = RhieChow /\ prm_velocity_interp_method p = "rc")) /\
    (if String.eqb (prm_velocity_interp_method p) "average" then inr Average
     else if String.eqb (prm_velocity_interp_method p) "rc" then inr RhieChow
     else inl (SetupMooseError "Unrecognized interpolation type")) = inr m').
  { destruct (String.eqb (prm_velocity_interp_method p) "average") eqn:Ea.
    - apply String.eqb_eq in Ea. exists Average. split; [left; split; [reflexivity|exact Ea]|reflexivity].
    - destruct (String.eqb (prm_velocity_interp_method p) "rc") eqn:Er.
      + apply String.eqb_eq in Er. exists RhieChow.
        split; [right; split; [reflexivity|exact Er]|reflexivity].
      + exfalso. discriminate. }
  destruct Hm as (m' & Hm' & Heq). rewrite Heq in H.
  destruct (prm_force_boundary_execution p); [discriminate|].
  destruct (bool_decide (prm_boundaries_to_force p = [])) eqn:Hb; simpl in H; [|discriminate].
  apply bool_decide_eq_true_1 in Hb.
  injection H as <- <-. simpl.
  split; [reflexivity|split; [reflexivity|]].
  split; [|split; [|split; [reflexivity|split; [reflexivity|split; [reflexivity|split;
    [reflexivity|split; [exact Hm'|split; [reflexivity|exact Hb]]]]]]]].
  - intros Hd. apply Nat.leb_le in Hd. rewrite Hd in Hv. simpl in Hv.
    destruct (prm_v_given p && prm_v_is_insfv p); [reflexivity|discriminate].
  - intros Hd. apply Nat.leb_le in Hd. rewrite Hd in Hw. simpl in Hw.
    destruct (prm_w_given p); [reflexivity|discriminate].
Qed.

Lemma construct_success_witness :
  exists k m, construct ex_params_3d = inr (k, m) /\
    ((3 <= prm_dim ex_params_3d)%nat -> prm_w_given ex_params_3d = true).
Proof.
  pose proof (construct_success ex_params_3d _ _ eq_refl) as (_ & _ & _ & Hw & _).
  do 2 eexists. split; [reflexivity|exact Hw].
Defined.

(** In three dimensions the [w] check only asks that the parameter be
    given: a [w] that is not an [INSFVVelocityVariable] passes every check
    and leaves the kernel without a [w] velocity variable, while a [v] of
    the wrong type is rejected. *)
Theorem construct_w_type_unchecked (p : PredictorParams) :
  prm_pressure_is_insfv p = true -> prm_u_is_insfv p = true ->
  prm_v_given p = true -> prm_v_is_insfv p = true ->
  prm_w_given p = true -> prm_w_is_insfv p = false ->
  prm_dim p = 3%nat ->
  prm_velocity_interp_method p = "average" \/ prm_velocity_interp_method p = "rc" ->
  prm_force_boundary_execution p = false -> prm_boundaries_to_force p = [] ->
  (exists k m, construct p = inr (k, m) /\ k_dim k = 3%nat /\ k_has_w k = false) /\
  (exists msg, construct {| prm_name := prm_name p; prm_app := prm_app p; prm_tid := prm_tid p;
      prm_pressure_is_insfv := true; prm_u_is_insfv := true;
      prm_v_given := true; prm_v_is_insfv := false;
      prm_w_given := true; prm_w_is_insfv := true; prm_dim := prm_dim p;
      prm_velocity_interp_method := prm_velocity_interp_method p;
      prm_advected_interp_method := prm_advected_interp_method p;
      prm_force_boundary_execution := false; prm_boundaries_to_force := [] |} =
     inl (ParamError "v" msg)).
Proof.
  intros Hp Hu Hvg Hvi Hwg Hwi Hd Hm Hf Hb. unfold construct. simpl.
  rewrite Hp, Hu, Hvg, Hvi, Hwg, Hwi, Hd, Hf, Hb. simpl.
  destruct Hm as [Hm|Hm]; rewrite Hm; simpl;
    (split; [|eexists; reflexivity]);
    (do 2 eexists; split; [reflexivity|split; reflexivity]).
Qed.

Lemma construct_w_type_unchecked_witness :
  exists k m, construct ex_params_3d = inr (k, m) /\ k_dim k = 3%nat /\ k_has_w k = false.
Proof.
  apply (construct_w_type_unchecked ex_params_3d);
    first [reflexivity | right; reflexivity].
Defined.

(** ** The coefficient cache *)

(** The cache of app [app] has [n] thread slots. *)
Lemma cache_slots_lookup (env : Env) (k : Kernel) (e : nat) (c : vec) (s s1 : RCStore)
    (app n : nat) :
  rcCoeff env k e s = Ok (c, s1) ->
  (exists maps, s !! app = Some maps /\ length maps = n) ->
  exists maps, s1 !! app = Some maps /\ length maps = n.
Proof.
  intros H (maps & Hs & Hl).
  destruct (rcCoeff_cases _ _ _ _ _ _ H) as (maps' & my_map & Hs' & Ht & Hcase).
  destruct Hcase as [[_ ->] | (_ & _ & ->)]; [exists maps; split; assumption|].
  destruct (decide (k_app k = app)) as [<-|Ha].
  - rewrite Hs in Hs'. injection Hs' as <-.
    exists (<[k_tid k := <[e := c]> my_map]> maps).
    split; [apply lookup_insert_eq|rewrite length_insert; exact Hl].
  - exists maps. split; [rewrite lookup_insert_ne by exact Ha; exact Hs|exact Hl].
Qed.

Lemma cache_slots_clear (k : Kernel) (s s1 : RCStore) (app n : nat) :
  clearRCCoeffs k s = Ok s1 ->
  (exists maps, s !! app = Some maps /\ length maps = n) ->
  exists maps, s1 !! app = Some maps /\ length maps = n.
Proof.
  unfold clearRCCoeffs. intros H (maps & Hs & Hl).
  destruct (s !! k_app k) as [maps'|] eqn:Hs'; [|discriminate].
  destruct (maps' !! k_tid k) as [m|] eqn:Ht; [|discriminate].
  injection H as <-.
  destruct (decide (k_app k = app)) as [<-|Ha].
  - rewrite Hs in Hs'. injection Hs' as <-.
    exists (<[k_tid k := ∅]> maps).
    split; [apply lookup_insert_eq|rewrite length_insert; exact Hl].
  - exists maps. split; [rewrite lookup_insert_ne by exact Ha; exact Hs|exact Hl].
Qed.

Lemma cache_slots_ops (s s1 : RCStore) (app n : nat) :
  cache_ops s s1 ->
  (exists maps, s !! app = Some maps /\ length maps = n) ->
  exists maps, s1 !! app = Some maps /\ length maps = n.
Proof.
  induction 1 as [s|env k e c s s1 s2 H _ IH|k s s1 s2 H _ IH]; intros Hs.
  - exact Hs.
  - apply IH. eapply cache_slots_lookup; eassumption.
  - apply IH. eapply cache_slots_clear; eassumption.
Qed.

(** Once the thread-0 constructor of an app has sized the cache for
    [n_threads] threads, and after any sequence of successful lookups and
    clears by any kernels, a kernel of that app on a thread below
    [n_threads] never trips [rcCoeff]'s or [clearRCCoeffs]'s assertions:
    [rcCoeff] fails only with the calculator's own error.  The
    constructor leaves the caches of other apps untouched. *)
Theorem construct_store_ready (env : Env) (k0 k : Kernel) (n_threads : nat)
    (s s1 : RCStore) (elem : nat) :
  k_tid k0 = 0%nat -> k_app k = k_app k0 -> (k_tid k < n_threads)%nat ->
  cache_ops (construct_store k0 n_threads s) s1 ->
  (exists s', clearRCCoeffs k s1 = Ok s') /\
  match rcCoeff env k elem s1 with
  | Ok _ => True
  | Err e => coeffCalculator env k elem = Err e
  end /\
  (forall k' e, k_app k' <> k_app k0 ->
     cached k' (construct_store k0 n_threads s) e = cached k' s e).
Proof.
  intros Ht Ha Hn Hops.
  assert (H0 : exists maps, construct_store k0 n_threads s !! k_app k = Some maps /\
                            length maps = n_threads).
  { unfold construct_store. destruct (decide (k_tid k0 = 0%nat)) as [_|]; [|contradiction].
    exists (resize n_threads ∅ (default [] (s !! k_app k0))).
    rewrite Ha. split; [apply lookup_insert_eq|apply length_resize]. }
  destruct (cache_slots_ops _ _ _ _ Hops H0) as (maps & Hs & Hl).
  assert (Hm : is_Some (maps !! k_tid k)) by (apply lookup_lt_is_Some_2; lia).
  destruct Hm as [my_map Hm].
  split; [|split].
  - unfold clearRCCoeffs. rewrite Hs, Hm. eexists. reflexivity.
  - unfold rcCoeff. rewrite Hs, Hm.
    destruct (my_map !! elem); [exact I|].
    destruct (coeffCalculator env k elem); [exact I|reflexivity].
  - intros k' e Hne. unfold construct_store.
    destruct (decide (k_tid k0 = 0%nat)) as [_|]; [|contradiction].
    unfold cached. rewrite lookup_insert_ne by congruence. reflexivity.
Qed.

Lemma construct_store_ready_witness :
  exists c s1,
    rcCoeff (ex_env false false vzero ex_faces) ex_kernel 1
      (construct_store ex_kernel 2 ∅) = Ok (c, s1) /\
    (exists s', clearRCCoeffs ex_kernel s1 = Ok s') /\
    match rcCoeff (ex_env false false vzero ex_faces) ex_kernel 0 s1 with
    | Ok _ => True
    | Err e => coeffCalculator (ex_env false false vzero ex_faces) ex_kernel 0 = Err e
    end.
Proof.
  assert (H : exists c s1,
    rcCoeff (ex_env false false vzero ex_faces) ex_kernel 1
      (construct_store ex_kernel 2 ∅) = Ok (c, s1)) by (do 2 eexists; reflexivity).
  destruct H as (c & s1 & H). exists c, s1. split; [exact H|].
  destruct (construct_store_ready (ex_env false false vzero ex_faces) ex_kernel ex_kernel 2 ∅ s1 0)
    as (H1 & H2 & _); [reflexivity|reflexivity|simpl; lia| |].
  - exact (cache_ops_lookup _ _ _ _ _ _ _ H (cache_ops_done s1)).
  - split; [exact H1|exact H2].
Defined.

(** A successful Rhie-Chow interpolation on an internal face leaves the
    coefficients of both cells of the face in the calling thread's cache,
    keeps every entry that was there, and changes no other app's or
    thread's cache. *)
Theorem rhie_chow_fills_cache (env : Env) (k : Kernel) (fi : FaceInfo) (v : vec)
    (s s' : RCStore) (w : vec) :
  onBoundary env fi = false ->
  interpolate env k RhieChow fi v s = Ok (w, s') ->
  (exists neighbor, fi_neighbor fi = Some neighbor /\
     is_Some (cached k s' (fi_elem fi)) /\ is_Some (cached k s' neighbor)) /\
  (forall e c0, cached k s e = Some c0 -> cached k s' e = Some c0) /\
  (forall k' e, k_app k' <> k_app k \/ k_tid k' <> k_tid k -> cached k' s' e = cached k' s e).
Proof.
  intros Hb H.
  destruct (interpolate_rc_inv env k RhieChow fi v s s' w ltac:(discriminate) Hb H)
    as (n & ea & na & s1 & Hn & H1 & H2 & _ & _ & _).
  destruct (rcCoeff_grows _ _ _ _ _ _ H1) as (C1 & G1 & O1).
  destruct (rcCoeff_grows _ _ _ _ _ _ H2) as (C2 & G2 & O2).
  split; [|split].
  - exists n. split; [exact Hn|split].
    + apply G2 in C1. rewrite C1. eexists. reflexivity.
    + rewrite C2. eexists. reflexivity.
  - intros e c0 Hc. apply G2, G1, Hc.
  - intros k' e Hne. rewrite O2, O1 by exact Hne. reflexivity.
Qed.

Lemma rhie_chow_fills_cache_witness :
  exists w s',
    interpolate (ex_env false false (Vec 5 0 0) ex_faces) ex_kernel RhieChow
      (ex_face 0 (Some 1%nat) []) vzero ex_store = Ok (w, s') /\
    is_Some (cached ex_kernel s' 0) /\ is_Some (cached ex_kernel s' 1).
Proof.
  destruct (ex_interpolate_rc false false (Vec 5 0 0) RhieChow ltac:(discriminate)) as [w H].
  exists w, ex_store. split; [exact H|].
  destruct (rhie_chow_fills_cache (ex_env false false (Vec 5 0 0) ex_faces) ex_kernel
    (ex_face 0 (Some 1%nat) []) vzero ex_store ex_store w eq_refl H)
    as ((n & Hn & He & Hn') & _ & _).
  injection Hn as <-. split; [exact He|exact Hn'].
Defined.

(** ** The face loop of [coeffCalculator] *)

Lemma add_each_zero (dim : nat) (c : vec) :
  (dim <= 3)%nat -> add_each dim (fun _ => 0) c = c.
Proof.
  intros Hd. apply vec_ext. intros i _. rewrite add_each_get by exact Hd.
  destruct (decide _); ring.
Qed.

(** What a face adds does not depend on the coefficient accumulated so far. *)
Lemma boundary_scan_shape (env : Env) (k : Kernel) (fv : FaceVisit) (tags : list Z) :
  (k_dim k <= 3)%nat ->
  (exists t, forall coeff, boundary_scan env k fv tags coeff = Some (add_each (k_dim k) t coeff)) \/
  (forall coeff, boundary_scan env k fv tags coeff = None).
Proof.
  intros Hd. induction tags as [|tag rest IH]; [right; reflexivity|].
  simpl.
  destruct (bool_decide (tag ∈ no_slip_wall_boundaries (k_bnds k))).
  { left. eexists. intros coeff. reflexivity. }
  destruct (bool_decide (tag ∈ slip_wall_boundaries (k_bnds k))).
  { left. exists (fun _ => 0). intros coeff. rewrite add_each_zero by exact Hd. reflexivity. }
  destruct (bool_decide (tag ∈ flow_boundaries (k_bnds k))).
  { left. eexists. intros coeff. reflexivity. }
  destruct (bool_decide (tag ∈ symmetry_boundaries (k_bnds k))).
  { left. eexists. intros coeff. reflexivity. }
  exact IH.
Qed.

Lemma action_functor_shape (env : Env) (k : Kernel) (ev : vec) (fv : FaceVisit) :
  (k_dim k <= 3)%nat ->
  (exists t, forall coeff, action_functor env k ev coeff fv = Ok (add_each (k_dim k) t coeff)) \/
  (exists e, forall coeff, action_functor env k ev coeff fv = Err e).
Proof.
  intros Hd. unfold action_functor.
  destruct (onBoundary env (fv_fi fv)).
  - destruct (boundary_scan_shape env k fv (fi_boundaryIDs (fv_fi fv)) Hd) as [[t Ht]|Hn].
    + left. exists t. intros coeff. rewrite Ht. reflexivity.
    + right. eexists. intros coeff. rewrite Hn. reflexivity.
  - left. eexists. intros coeff. reflexivity.
Qed.

(** The face loop succeeds exactly when the action functor succeeds on
    each of its faces (for any accumulated coefficient). *)
Lemma loop_faces_ok_iff (env : Env) (k : Kernel) (ev : vec) (fvs : list FaceVisit)
    (coeff : vec) :
  (k_dim k <= 3)%nat ->
  (exists c, loop_faces env k ev fvs coeff = Ok c) <->
  Forall (fun fv => forall c0, exists c1, action_functor env k ev c0 fv = Ok c1) fvs.
Proof.
  intros Hd. revert coeff.
  induction fvs as [|fv rest IH]; intros coeff.
  - split; [intros _; constructor|intros _; eexists; reflexivity].
  - rewrite Forall_cons. simpl.
    destruct (action_functor_shape env k ev fv Hd) as [[t Ht]|[e He]].
    + rewrite Ht. simpl. rewrite IH.
      split; [intros H; split; [intros c0; eexists; apply Ht|exact H]|intros [_ H]; exact H].
    + rewrite He. simpl. split; [intros [c Hc]; discriminate|].
      intros [H _]. destruct (H coeff) as [c1 Hc1]. rewrite He in Hc1. discriminate.
Qed.

(** Whether the face loop of [coeffCalculator] gives a coefficient does
    not depend on the order in which it visits the faces of the cell:
    each face either contributes for every accumulated value or fails for
    every one.  (The values are not compared: the source accumulates in
    floating point, where the order of the additions matters.) *)
Theorem coeff_loop_success_order_independent (env : Env) (k : Kernel) (ev : vec)
    (fvs fvs' : list FaceVisit) (coeff : vec) :
  (k_dim k <= 3)%nat ->
  Permutation fvs fvs' ->
  (exists c, loop_faces env k ev fvs coeff = Ok c) <->
  (exists c, loop_faces env k ev fvs' coeff = Ok c).
Proof.
  intros Hd Hp. rewrite !loop_faces_ok_iff by exact Hd.
  rewrite !Forall_forall.
  split; intros H fv Hin; apply H.
  - rewrite list_elem_of_In in Hin |- *. eapply Permutation_in; [symmetry; exact Hp|exact Hin].
  - rewrite list_elem_of_In in Hin |- *. eapply Permutation_in; [exact Hp|exact Hin].
Qed.

Lemma coeff_loop_success_order_independent_witness :
  exists c c',
    loop_faces (ex_env false false vzero ex_faces) ex_kernel (Vec 1 0 0) (ex_faces 0) vzero = Ok c /\
    loop_faces (ex_env false false vzero ex_faces) ex_kernel (Vec 1 0 0) (rev (ex_faces 0)) vzero = Ok c'.
Proof.
  assert (H : exists c,
    loop_faces (ex_env false false vzero ex_faces) ex_kernel (Vec 1 0 0) (ex_faces 0) vzero = Ok c)
    by (eexists; reflexivity).
  destruct (proj1 (coeff_loop_success_order_independent (ex_env false false vzero ex_faces)
           ex_kernel (Vec 1 0 0) (ex_faces 0) (rev (ex_faces 0)) vzero
           ltac:(simpl; lia) (Permutation_rev _)) H) as [c' H'].
  destruct H as [c H]. exists c, c'. split; [exact H|exact H'].
Defined.

(** ** The debug-build check of [interpolate] *)

(** A boundary face the framework does not skip has no flux BC, and
    either carries a flow boundary id, and then the debug build's check in
    [interpolate] passes, or carries only non-flow ids and a Dirichlet BC,
    and then that check fails: [computeQpResidual] is evaluated on it and
    stops on the assertion. *)
Theorem unskipped_boundary_debug_check (env : Env) (k : Kernel) (m : InterpMethod)
    (fi : FaceInfo) (v : vec) (store : RCStore) :
  onBoundary env fi = true ->
  skipForBoundary env k fi = false ->
  has_flux_bc env fi = false /\
  ((Exists (fun b_id => b_id ∈ flow_boundaries (k_bnds k)) (fi_boundaryIDs fi) /\
    interpolate_checked true env k m fi v store = interpolate env k m fi v store) \/
   (Forall (fun b_id => b_id ∉ flow_boundaries (k_bnds k)) (fi_boundaryIDs fi) /\
    has_dirichlet_bc env fi = true /\
    exists msg, interpolate_checked true env k m fi v store = Err (AssertFail msg))).
Proof.
  intros Hb Hs. unfold skipForBoundary in Hs. rewrite Hb in Hs. simpl in Hs.
  destruct (has_flux_bc env fi) eqn:Hf; [discriminate|].
  split; [reflexivity|].
  unfold interpolate_checked. rewrite Hb. simpl.
  destruct (existsb (fun b_id => bool_decide (b_id ∈ flow_boundaries (k_bnds k)))
              (fi_boundaryIDs fi)) eqn:He.
  - left. split; [|reflexivity].
    apply existsb_exists in He. destruct He as (x & Hx & Hd).
    apply Exists_exists. exists x. split; [apply list_elem_of_In; exact Hx|].
    apply bool_decide_eq_true_1 in Hd. exact Hd.
  - right. split; [|split].
    + apply Forall_forall. intros x Hx Hin.
      assert (Ht : existsb (fun b_id => bool_decide (b_id ∈ flow_boundaries (k_bnds k)))
                     (fi_boundaryIDs fi) = true).
      { apply existsb_exists. exists x. split; [apply list_elem_of_In; exact Hx|].
        apply bool_decide_eq_true_2. exact Hin. }
      congruence.
    + destruct (has_dirichlet_bc env fi); [reflexivity|discriminate].
    + eexists. reflexivity.
Qed.

Lemma unskipped_boundary_debug_check_witness :
  exists msg,
    interpolate_checked true (ex_env false true vzero ex_faces) ex_kernel Average
      (ex_face 0 None [7%Z]) vzero ∅ = Err (AssertFail msg).
Proof.
  destruct (unskipped_boundary_debug_check (ex_env false true vzero ex_faces) ex_kernel Average
              (ex_face 0 None [7%Z]) vzero ∅) as (_ & [(Hex & _)|(_ & _ & Hmsg)]);
    [reflexivity|reflexivity| |exact Hmsg].
  exfalso. inversion Hex as [? ? Hin|? ? Hex']; subst.
  - simpl in Hin. set_solver.
  - inversion Hex'.
Defined.

(** ** [computeQpResidual] *)

(** Rhie-Chow mode gives the average-mode velocity when the corrected and
    uncorrected pressure gradients agree below [dim]. *)
Lemma interpolate_rc_as_average (env : Env) (k : Kernel) (fi : FaceInfo) (v : vec)
    (s s' : RCStore) (w : vec) :
  (k_dim k <= 3)%nat ->
  (forall i, (i < k_dim k)%nat ->
     vget (adGradSln_p env fi) i = vget (uncorrectedAdGradSln_p env fi) i) ->
  interpolate env k RhieChow fi v s = Ok (w, s') ->
  interpolate env k Average fi v s = Ok (w, s).
Proof.
  intros Hd Hg H.
  destruct (onBoundary env fi) eqn:Hb.
  - unfold interpolate in H |- *. rewrite Hb in H |- *.
    injection H as <- <-. reflexivity.
  - destruct (interpolate_rc_inv env k RhieChow fi v s s' w ltac:(discriminate) Hb H)
      as (n & ea & na & s1 & Hn & H1 & H2 & Hc & Hea & Hna).
    rewrite (interpolate_rc_unfold env k RhieChow fi v s s1 s' n ea na)
      in H by first [discriminate | assumption].
    injection H as Hw.
    unfold interpolate. rewrite Hb. f_equal. f_equal.
    rewrite <- Hw. apply vec_ext. intros i _.
    rewrite for_range_sub_get by exact Hd.
    destruct (decide (i < k_dim k)%nat); [|reflexivity].
    rewrite (Hg i) by assumption. ring.
Qed.

(** The face residual of the momentum predictor in Rhie-Chow mode is the
    one of average mode whenever the corrected and uncorrected pressure
    gradients agree below [dim] (a linear pressure): both the convective
    and the diffusive terms coincide; only the cache may differ. *)
Theorem residual_rhie_chow_as_average (env : Env) (renv : ResidualEnv) (k : Kernel)
    (fi : FaceInfo) (s s' : RCStore) (r : R) :
  (k_dim k <= 3)%nat ->
  (forall i, (i < k_dim k)%nat ->
     vget (adGradSln_p env fi) i = vget (uncorrectedAdGradSln_p env fi) i) ->
  computeQpResidual env renv k RhieChow fi s = Ok (r, s') ->
  computeQpResidual env renv k Average fi s = Ok (r, s).
Proof.
  intros Hd Hg H. unfold computeQpResidual in H |- *.
  destruct (interpolate env k RhieChow fi vzero s) as [[w s1]|e] eqn:Hi; simpl in H; [|discriminate].
  rewrite (interpolate_rc_as_average env k fi vzero s s1 w Hd Hg Hi). simpl.
  injection H as <- _. reflexivity.
Qed.

Lemma residual_rhie_chow_as_average_witness :
  exists r,
    computeQpResidual (ex_env false false (Vec 1 0 0) ex_faces) ex_renv ex_kernel RhieChow
      (ex_face 0 (Some 1%nat) []) ex_store = Ok (r, ex_store) /\
    computeQpResidual (ex_env false false (Vec 1 0 0) ex_faces) ex_renv ex_kernel Average
      (ex_face 0 (Some 1%nat) []) ex_store = Ok (r, ex_store).
Proof.
  assert (H : exists r,
    computeQpResidual (ex_env false false (Vec 1 0 0) ex_faces) ex_renv ex_kernel RhieChow
      (ex_face 0 (Some 1%nat) []) ex_store = Ok (r, ex_store)).
  { destruct (ex_interpolate_rc false false (Vec 1 0 0) RhieChow ltac:(discriminate))
      as [w Hw].
    unfold computeQpResidual. rewrite Hw. eexists. reflexivity. }
  destruct H as (r & H). exists r. split; [exact H|].
  apply (residual_rhie_chow_as_average (ex_env false false (Vec 1 0 0) ex_faces) ex_renv
           ex_kernel (ex_face 0 (Some 1%nat) []) ex_store ex_store r).
  - simpl. lia.
  - intros i _. reflexivity.
  - exact H.
Defined.

(** ** The pressure predictor *)

Lemma vec_of_vars_get (hy hz : bool) (value : nat -> R) (i : nat) :
  vget (vec_of_vars hy hz value) i =
  match i with
  | 0%nat => value 0%nat
  | 1%nat => if hy then value 1%nat else 0
  | 2%nat => if hz then value 2%nat else 0
  | _ => 0
  end.
Proof. destruct hy, hz, i as [|[|[|i]]]; reflexivity. Qed.

Lemma vdot_vget (a b : vec) :
  vdot a b = vget a 0 * vget b 0 + vget a 1 * vget b 1 + vget a 2 * vget b 2.
Proof. reflexivity. Qed.

(** When [Ainv] and [Hu] have the same value in the two cells of the face
    (as read through [getNeighborValue]), the face averages reproduce
    them: the residual is [(Ainv o grad p) . n + Hu . n], with the
    components of uncoupled variables dropped. *)
Theorem pressure_residual_uniform (pe : PPEnv) (pk : PressurePredictor) (fi : FaceInfo) :
  (forall c, Ainv_neighbor_value pe c (fi_neighbor fi) fi (Ainv_elem_value pe c (fi_elem fi)) =
             Ainv_elem_value pe c (fi_elem fi)) ->
  (forall c, Hu_neighbor_value pe c (fi_neighbor fi) fi (Hu_elem_value pe c (fi_elem fi)) =
             Hu_elem_value pe c (fi_elem fi)) ->
  pp_computeQpResidual pe pk fi =
  vdot (vec_of_vars (has_Ainv_y pk) (has_Ainv_z pk)
          (fun c => Ainv_elem_value pe c (fi_elem fi) * vget (pp_adGradSln pe fi) c))
       (fi_normal fi) +
  vdot (vec_of_vars (has_Hu_y pk) (has_Hu_z pk) (fun c => Hu_elem_value pe c (fi_elem fi)))
       (fi_normal fi).
Proof.
  intros HA HH. unfold pp_computeQpResidual. cbv zeta. rewrite !vdot_vget.
  rewrite !vec_of_vars_get, !interpolate_average_get, !vec_of_vars_get.
  destruct (has_Ainv_y pk), (has_Ainv_z pk), (has_Hu_y pk), (has_Hu_z pk);
    rewrite ?HA, ?HH; ring.
Qed.

Lemma pressure_residual_uniform_witness :
  pp_computeQpResidual (ex_pp_env (Vec 1 1 1)) ex_pp_2d (ex_face 0 (Some 1%nat) []) =
  vdot (Vec (1 * 1) (2 * 1) 0) (Vec 1 0 0) + vdot (Vec 5 6 0) (Vec 1 0 0).
Proof.
  rewrite (pressure_residual_uniform (ex_pp_env (Vec 1 1 1)) ex_pp_2d (ex_face 0 (Some 1%nat) []))
    by (intros c; reflexivity).
  unfold vdot. simpl. ring.
Defined.

(** The pressure predictor's residual does not depend on the components of
    the pressure gradient whose [Ainv] variable is not coupled (the y and
    z components on a 1-D mesh, the z component on a 2-D mesh). *)
Theorem pressure_residual_uncoupled_gradient (pe1 pe2 : PPEnv) (pk : PressurePredictor)
    (fi : FaceInfo) :
  Ainv_elem_value pe1 = Ainv_elem_value pe2 ->
  Ainv_neighbor_value pe1 = Ainv_neighbor_value pe2 ->
  Hu_elem_value pe1 = Hu_elem_value pe2 ->
  Hu_neighbor_value pe1 = Hu_neighbor_value pe2 ->
  vget (pp_adGradSln pe1 fi) 0 = vget (pp_adGradSln pe2 fi) 0 ->
  (has_Ainv_y pk = true -> vget (pp_adGradSln pe1 fi) 1 = vget (pp_adGradSln pe2 fi) 1) ->
  (has_Ainv_z pk = true -> vget (pp_adGradSln pe1 fi) 2 = vget (pp_adGradSln pe2 fi) 2) ->
  pp_computeQpResidual pe1 pk fi = pp_computeQpResidual pe2 pk fi.
Proof.
  intros E1 E2 E3 E4 G0 G1 G2. unfold pp_computeQpResidual. cbv zeta. rewrite !vdot_vget.
  rewrite E1, E2, E3, E4.
  rewrite !vec_of_vars_get, !interpolate_average_get.
  rewrite G0.
  destruct (has_Ainv_y pk), (has_Ainv_z pk);
    rewrite ?G1, ?G2 by reflexivity; reflexivity.
Qed.

Lemma pressure_residual_uncoupled_gradient_witness :
  pp_computeQpResidual (ex_pp_env (Vec 1 1 1)) ex_pp_2d (ex_face 0 (Some 1%nat) []) =
  pp_computeQpResidual (ex_pp_env (Vec 1 1 9)) ex_pp_2d (ex_face 0 (Some 1%nat) []).
Proof.
  apply (pressure_residual_uncoupled_gradient (ex_pp_env (Vec 1 1 1)) (ex_pp_env (Vec 1 1 9))
           ex_pp_2d (ex_face 0 (Some 1%nat) [])); try reflexivity.
  discriminate.
Defined.
